(** * gamersDB-api: the game/owner relation served by [server.js]

    A shallow embedding of the Express handlers of [src/server.js] and of
    the SQLite store they talk to, followed by the properties of the
    catalogue operations (list, list-playable, create, delete, add owner,
    remove owner).

    Conventions of the embedding.
    - A JavaScript string is a [string] whose characters are the code units
      below 256; the white space of [String.prototype.trim] in that range is
      TAB, LF, VT, FF, CR, SPACE and NBSP.
    - A route parameter [:id] is read as the number the store compares:
      both [games.id] and [game_gamers.game_id] have INTEGER affinity, so
      SQLite compares and stores the decimal text of an integer of 64 bits
      as that integer.  A numeral beyond 64 bits is held by SQLite as its
      rounding to a double, and is read here as that rounded number.
    - Numbers are integers ([Z]).  A number of the request is the double
      nearest to its numeral ([JS.toNumber]); Infinity, the only number
      of [parseInt] that is no integer, is held as 2^1024, the first
      integer above every double.  Fractions are not modelled.
    - The store is one connection ([db]) used by one request at a time; a
      table is the list of its rows in rowid order. *)

From Stdlib Require Import ZArith List Bool Ascii String Lia Arith.
From Stdlib Require Import Sorted Permutation.
Import ListNotations.
Open Scope string_scope.
Open Scope Z_scope.

(** ** JavaScript values and the string functions the handlers call *)

Module JS.

(** The values a JSON body field can hold, as far as the handlers look. *)
Inductive value : Type :=
| Undefined
| Null
| Bool (b : bool)
| Num (n : Z)
| Str (s : string).

(** [!v] is [negb (truthy v)]. *)
Definition truthy (v : value) : bool :=
  match v with
  | Undefined | Null => false
  | Bool b => b
  | Num n => negb (n =? 0)
  | Str s => negb (s =? "")%string
  end.

(** A body field that is a string or absent. *)
Definition truthy_string (v : option string) : bool :=
  match v with
  | None => false
  | Some s => negb (s =? "")%string
  end.

Definition isWhiteSpace (c : ascii) : bool :=
  let n := nat_of_ascii c in
  ((n =? 9) || (n =? 10) || (n =? 11) || (n =? 12) || (n =? 13)
   || (n =? 32) || (n =? 160))%nat.

Fixpoint trimStart (s : string) : string :=
  match s with
  | EmptyString => EmptyString
  | String c s' => if isWhiteSpace c then trimStart s' else s
  end.

Fixpoint trimEnd (s : string) : string :=
  match s with
  | EmptyString => EmptyString
  | String c s' =>
      match trimEnd s' with
      | EmptyString => if isWhiteSpace c then EmptyString else String c EmptyString
      | t => String c t
      end
  end.

(** [s.trim()] *)
Definition trim (s : string) : string := trimEnd (trimStart s).

(** [s.split(',')]: never the empty array; [''.split(',')] is [['']]. *)
Fixpoint split (s : string) : list string :=
  match s with
  | EmptyString => [EmptyString]
  | String c s' =>
      if Ascii.eqb c "," then EmptyString :: split s'
      else match split s' with
           | [] => [String c EmptyString]
           | h :: t => String c h :: t
           end
  end.

(** [a.join(',')] *)
Definition join (a : list string) : string := String.concat "," a.

Definition nonEmpty (s : string) : bool := negb (s =? "")%string.

(** [s.split(',').map(name => name.trim()).filter(name => name)], the
    expression both [/api/games/playable] and [POST /api/games/all] apply to
    a comma separated list of names. *)
Definition names_of (s : string) : list string :=
  filter nonEmpty (map trim (split s)).

(** The value of a digit in [parseInt]. *)
Definition digitValue (c : ascii) : option Z :=
  let n := Z.of_nat (nat_of_ascii c) in
  if (48 <=? n) && (n <=? 57) then Some (n - 48)
  else if (97 <=? n) && (n <=? 122) then Some (n - 87)
  else if (65 <=? n) && (n <=? 90) then Some (n - 55)
  else None.

(** The longest prefix of digits of the radix, as a number; [acc] is the
    value read so far, [None] while no digit was read. *)
Fixpoint parseDigits (radix : Z) (s : string) (acc : option Z) : option Z :=
  match s with
  | EmptyString => acc
  | String c s' =>
      match digitValue c with
      | Some v =>
          if v <? radix
          then parseDigits radix s' (Some (radix * match acc with Some a => a | None => 0 end + v))
          else acc
      | None => acc
      end
  end.

(** Infinity, as an integer above every double. *)
Definition Infinity : Z := 2 ^ 1024.

(** The double nearest to the integer [n], as an integer: 53 significant
    bits are kept and a tie goes to the even neighbour; from
    2^1024 - 2^970 on the result is (plus or minus) Infinity. *)
Definition toNumber (n : Z) : Z :=
  let a := Z.abs n in
  let e := Z.log2 a + 1 - 53 in
  if e <=? 0 then n
  else
    let q := a / 2 ^ e in
    let r := a mod 2 ^ e in
    let half := 2 ^ (e - 1) in
    let q' := if r <? half then q
              else if half <? r then q + 1
              else if Z.even q then q else q + 1 in
    Z.sgn n * Z.min (q' * 2 ^ e) Infinity.

(** The largest power of ten that is at most [a], for 1 <= a. *)
Fixpoint powerOfTenBelow (fuel : nat) (p a : Z) : Z :=
  match fuel with
  | O => p
  | S fuel' => if 10 * p <=? a then powerOfTenBelow fuel' (10 * p) a else p
  end.

(** The first digit of [String(a)] for a double [a] from 10^21 on, which
    is rendered in exponent notation with the fewest digits that read back
    as [a].  The numbers that read back as [a] lie between the midpoints
    to its two neighbours, the midpoints included when the significand of
    [a] is even.  If a number of one significant digit lies there, it is
    the rendering; otherwise every number there begins like [a]. *)
Definition firstDigit (a : Z) : Z :=
  let e := Z.log2 a + 1 - 53 in
  let m := a / 2 ^ e in
  let up := 2 ^ (e - 1) in
  let down := if m =? 2 ^ 52 then 2 ^ (e - 2) else 2 ^ (e - 1) in
  let lo := a - down in
  let hi := a + up in
  let p := powerOfTenBelow 400 1 hi in
  let b := hi / p * p in
  let between := if Z.even m then lo <=? b else (lo <? b) && (b <? hi) in
  if between then hi / p else a / powerOfTenBelow 400 1 a.

(** [parseInt(s)] on a string, no radix given; [None] is NaN.  The digits
    are read exactly and the result is the double nearest to them. *)
Definition parseInt_string (s : string) : option Z :=
  let s1 := trimStart s in
  let '(sign, s2) :=
    match s1 with
    | String "-" r => (-1, r)
    | String "+" r => (1, r)
    | _ => (1, s1)
    end in
  let '(radix, s3) :=
    match s2 with
    | String "0" (String "x" r) => (16, r)
    | String "0" (String "X" r) => (16, r)
    | _ => (10, s2)
    end in
  option_map (fun v => toNumber (sign * v)) (parseDigits radix s3 None).

(** [parseInt(v)]: the argument is converted to a string first.
    [Num n] is the number of the numeral [n], the double [toNumber n].
    Below 10^21 it is rendered by its digits and reads back as itself;
    from 10^21 on it is rendered in exponent notation, of which [parseInt]
    reads the first digit only; Infinity is rendered as a word.
    [undefined], [null], [true] and [false] render as words too and give
    NaN. *)
Definition parseInt (v : value) : option Z :=
  match v with
  | Num n =>
      let d := toNumber n in
      if Infinity <=? Z.abs d then None
      else if Z.abs d <? 10 ^ 21 then Some d
      else Some (Z.sgn d * firstDigit (Z.abs d))
  | Str s => parseInt_string s
  | Undefined | Null | Bool _ => None
  end.

End JS.

(** ** The SQLite store

    The two tables of the schema.  [created_at] is never read and is left
    out.  [seq_games] and [seq_game_gamers] are the rows of
    [sqlite_sequence] that AUTOINCREMENT keeps: the largest rowid each table
    ever had.  They are part of the database file, hence of what a
    transaction restores. *)

Record game_row : Type := {
  g_id : Z;
  g_game : string;
  g_players : Z
}.

Record gamer_row : Type := {
  gg_id : Z;
  gg_game_id : Z;
  gg_gamer_name : string
}.

Record tables : Type := {
  games : list game_row;
  game_gamers : list gamer_row;
  seq_games : Z;
  seq_game_gamers : Z
}.

Definition empty_tables : tables :=
  {| games := []; game_gamers := []; seq_games := 0; seq_game_gamers := 0 |}.

(** The statements [db.run] is given, with their bound parameters.  The
    players of an inserted game is [parseInt(players)], which may be NaN
    ([None]); SQLite binds NaN as NULL. *)
Inductive statement : Type :=
| BEGIN_TRANSACTION
| COMMIT
| ROLLBACK
| INSERT_INTO_games (game : string) (players : option Z)
| INSERT_INTO_game_gamers (game_id : Z) (gamer_name : string)
| DELETE_FROM_game_gamers_WHERE_game_id (game_id : Z)
| DELETE_FROM_games_WHERE_id (id : Z)
| DELETE_FROM_game_gamers_WHERE_game_id_AND_gamer_name (game_id : Z) (gamer_name : string).

(** The two queries [db.all] is given. *)
Inductive query : Type :=
| SELECT_games_with_gamers
| SELECT_playable_games (playerNames : list string).

(** What was sent to the connection: [db.run] of a statement, the one
    [db.get] of the program, which is
    SELECT id FROM game_gamers WHERE game_id = ? AND gamer_name = ?,
    or [db.all] of a query. *)
Inductive sql : Type :=
| Run (s : statement)
| Get_id_FROM_game_gamers (game_id : Z) (gamer_name : string)
| All (q : query).

(** A connection: the current content, the content at BEGIN while a
    transaction is open, and every statement issued so far, oldest first. *)
Record db : Type := {
  cur : tables;
  txn : option tables;
  log : list sql
}.

Definition new_db : db := {| cur := empty_tables; txn := None; log := [] |}.

(** What the callback of [db.run] sees: [err], or [this.lastID] and
    [this.changes]. *)
Inductive run_result : Type :=
| RunError
| RunOk (lastID : Z) (changes : nat).

(** A row of the two SELECT ... GROUP BY queries; a column is [None] when
    it is NULL (or, for [r_owners_in_group], not selected). *)
Record result_row : Type := {
  r_id : Z;
  r_game : string;
  r_players : Z;
  r_gamer_list : option string;
  r_owners_in_group : option string
}.

(** AUTOINCREMENT: one more than the largest rowid the table has or ever
    had. *)
Definition next_rowid (seq : Z) (ids : list Z) : Z :=
  Z.max seq (fold_right Z.max 0 ids) + 1.

Definition insert_game (t : tables) (game : string) (players : Z) : tables * Z :=
  let id := next_rowid (seq_games t) (map g_id (games t)) in
  ({| games := games t ++ [{| g_id := id; g_game := game; g_players := players |}];
      game_gamers := game_gamers t;
      seq_games := id;
      seq_game_gamers := seq_game_gamers t |}, id).

(** No foreign key is checked: the program never turns [PRAGMA
    foreign_keys] on, and SQLite leaves it off by default. *)
Definition insert_gamer (t : tables) (game_id : Z) (gamer_name : string) : tables * Z :=
  let id := next_rowid (seq_game_gamers t) (map gg_id (game_gamers t)) in
  ({| games := games t;
      game_gamers := game_gamers t
                     ++ [{| gg_id := id; gg_game_id := game_id; gg_gamer_name := gamer_name |}];
      seq_games := seq_games t;
      seq_game_gamers := id |}, id).

Definition of_game (game_id : Z) (r : gamer_row) : bool := gg_game_id r =? game_id.

Definition is_edge (game_id : Z) (gamer_name : string) (r : gamer_row) : bool :=
  (gg_game_id r =? game_id) && (gg_gamer_name r =? gamer_name)%string.

Definition has_id (id : Z) (g : game_row) : bool := g_id g =? id.

(** DELETE: the rows that do not match stay, in order; the count of the
    matching rows is [this.changes]. *)
Definition delete_gamers (t : tables) (p : gamer_row -> bool) : tables * nat :=
  ({| games := games t;
      game_gamers := filter (fun r => negb (p r)) (game_gamers t);
      seq_games := seq_games t;
      seq_game_gamers := seq_game_gamers t |},
   List.length (filter p (game_gamers t))).

Definition delete_games (t : tables) (p : game_row -> bool) : tables * nat :=
  ({| games := filter (fun g => negb (p g)) (games t);
      game_gamers := game_gamers t;
      seq_games := seq_games t;
      seq_game_gamers := seq_game_gamers t |},
   List.length (filter p (games t))).

(** GROUP_CONCAT: NULL over no value, else the values joined by commas.
    SQLite leaves the order open; rowid order is taken here. *)
Definition group_concat (l : list string) : option string :=
  match l with
  | [] => None
  | _ => Some (JS.join l)
  end.

(** DISTINCT: each value once, at its first occurrence. *)
Fixpoint distinct (l : list string) : list string :=
  match l with
  | [] => []
  | x :: t => x :: filter (fun y => negb (x =? y)%string) (distinct t)
  end.

(** ORDER BY g.game ASC under the BINARY collation, as a stable insertion
    sort. *)
Fixpoint insert_row (r : result_row) (l : list result_row) : list result_row :=
  match l with
  | [] => [r]
  | h :: t => if String.leb (r_game r) (r_game h) then r :: l else h :: insert_row r t
  end.

Definition order_by_game (l : list result_row) : list result_row :=
  fold_right insert_row [] l.

(** The names joined to a game by
    [LEFT JOIN game_gamers gg ON g.id = gg.game_id]. *)
Definition gamers_of (t : tables) (g : game_row) : list string :=
  map gg_gamer_name (filter (of_game (g_id g)) (game_gamers t)).

(** The query of [getGamesWithGamers] with its default arguments. *)
Definition games_with_gamers_row (t : tables) (g : game_row) : result_row :=
  {| r_id := g_id g;
     r_game := g_game g;
     r_players := g_players g;
     r_gamer_list := group_concat (gamers_of t g);
     r_owners_in_group := None |}.

Definition select_games_with_gamers (t : tables) : list result_row :=
  order_by_game (map (games_with_gamers_row t) (games t)).

(** The query of [getPlayableGames]. *)
Definition in_group (playerNames : list string) (gamer_name : string) : bool :=
  existsb (String.eqb gamer_name) playerNames.

Definition playable_row (t : tables) (playerNames : list string) (g : game_row) : result_row :=
  {| r_id := g_id g;
     r_game := g_game g;
     r_players := g_players g;
     r_gamer_list := group_concat (distinct (gamers_of t g));
     r_owners_in_group :=
       group_concat (distinct (filter (in_group playerNames) (gamers_of t g))) |}.

(** HAVING g.players >= ? AND owners_in_group IS NOT NULL, the parameter
    being [playerNames.length]. *)
Definition having (n : nat) (r : result_row) : bool :=
  (r_players r >=? Z.of_nat n) &&
  match r_owners_in_group r with Some _ => true | None => false end.

Definition select_playable_games (t : tables) (playerNames : list string) : list result_row :=
  order_by_game
    (filter (having (List.length playerNames)) (map (playable_row t playerNames) (games t))).

(** ** The responses *)

(** An element of [items]. [i_owners_in_group] is [None] for [null]. *)
Record item : Type := {
  i_rowid : Z;
  i_game : string;
  i_players : Z;
  i_gamer_list : string;
  i_owners_in_group : option string
}.

(** The JSON bodies: [{ items }], [{ success: true, id }] (the id absent
    for the two deletions) and [{ error }]. *)
Inductive body : Type :=
| Items (items : list item)
| Success (id : option Z)
| Error (error : string).

(** [res.status(code).json(body)]; [Pending] when no response was sent. *)
Inductive response : Type :=
| Reply (status : nat) (json : body)
| Pending.

(** [x || ''] *)
Definition or_empty (x : option string) : string :=
  match x with
  | Some s => s
  | None => ""
  end.

(** The kinds of failure of the specification, read off a response: 404 is
    NotFound, 500 is StoreError, 400 is ConflictError with the message of
    the duplicate owner and ValidationError otherwise. *)
Inductive failure : Type :=
| ValidationError
| ConflictError
| NotFound
| StoreError.

Definition failure_of (r : response) : option failure :=
  match r with
  | Reply 400%nat (Error e) =>
      if (e =? "Gamer already exists for this game")%string
      then Some ConflictError else Some ValidationError
  | Reply 404%nat _ => Some NotFound
  | Reply 500%nat _ => Some StoreError
  | _ => None
  end.

(** ** The connection and the handlers *)

Section Server.

(** The failures the store suffers from outside (I/O error, full disk):
    [fault n] tells whether the statement sent when [n] were sent before it
    fails.  A failed statement changes nothing and leaves an open
    transaction open (SQLite's statement-level abort).  BEGIN, COMMIT and
    ROLLBACK fail only when there is, or is not, a transaction to act on. *)
Variable fault : nat -> bool.

Definition issue (d : db) (s : sql) (t : tables) (x : option tables) : db :=
  {| cur := t; txn := x; log := log d ++ [s] |}.

Definition failed (d : db) (s : sql) : db := issue d s (cur d) (txn d).

Definition faulty (d : db) : bool := fault (List.length (log d)).

(** [db.run(sql, params, callback)] *)
Definition db_run (d : db) (s : statement) : db * run_result :=
  match s with
  | BEGIN_TRANSACTION =>
      match txn d with
      | None => (issue d (Run s) (cur d) (Some (cur d)), RunOk 0 0)
      | Some _ => (failed d (Run s), RunError)
      end
  | COMMIT =>
      match txn d with
      | Some _ => (issue d (Run s) (cur d) None, RunOk 0 0)
      | None => (failed d (Run s), RunError)
      end
  | ROLLBACK =>
      match txn d with
      | Some t => (issue d (Run s) t None, RunOk 0 0)
      | None => (failed d (Run s), RunError)
      end
  | INSERT_INTO_games game players =>
      if faulty d then (failed d (Run s), RunError)
      else match players with
           | None => (failed d (Run s), RunError) (* NOT NULL constraint *)
           | Some p =>
               let (t, id) := insert_game (cur d) game p in
               (issue d (Run s) t (txn d), RunOk id 1)
           end
  | INSERT_INTO_game_gamers game_id gamer_name =>
      if faulty d then (failed d (Run s), RunError)
      else let (t, id) := insert_gamer (cur d) game_id gamer_name in
           (issue d (Run s) t (txn d), RunOk id 1)
  | DELETE_FROM_game_gamers_WHERE_game_id game_id =>
      if faulty d then (failed d (Run s), RunError)
      else let (t, n) := delete_gamers (cur d) (of_game game_id) in
           (issue d (Run s) t (txn d), RunOk 0 n)
  | DELETE_FROM_games_WHERE_id id =>
      if faulty d then (failed d (Run s), RunError)
      else let (t, n) := delete_games (cur d) (has_id id) in
           (issue d (Run s) t (txn d), RunOk 0 n)
  | DELETE_FROM_game_gamers_WHERE_game_id_AND_gamer_name game_id gamer_name =>
      if faulty d then (failed d (Run s), RunError)
      else let (t, n) := delete_gamers (cur d) (is_edge game_id gamer_name) in
           (issue d (Run s) t (txn d), RunOk 0 n)
  end.

(** [db.get] of the membership query: [None] is [err], [Some None] is no
    row, [Some (Some id)] is the first matching row. *)
Definition db_get (d : db) (game_id : Z) (gamer_name : string) : db * option (option Z) :=
  let d' := failed d (Get_id_FROM_game_gamers game_id gamer_name) in
  if faulty d then (d', None)
  else (d', Some (option_map gg_id
                    (find (is_edge game_id gamer_name) (game_gamers (cur d))))).

(** [db.all]: [None] is [err]. *)
Definition db_all (d : db) (q : query) : db * option (list result_row) :=
  let d' := failed d (All q) in
  if faulty d then (d', None)
  else (d', Some match q with
                 | SELECT_games_with_gamers => select_games_with_gamers (cur d)
                 | SELECT_playable_games playerNames =>
                     select_playable_games (cur d) playerNames
                 end).

(** The promise of either helper rejects on [err] and resolves to the rows
    otherwise. *)
Definition getGamesWithGamers (d : db) : db * option (list result_row) :=
  db_all d SELECT_games_with_gamers.

Definition getPlayableGames (d : db) (playerNames : list string)
  : db * option (list result_row) :=
  db_all d (SELECT_playable_games playerNames).

Definition game_item (game : result_row) : item :=
  {| i_rowid := r_id game;
     i_game := r_game game;
     i_players := r_players game;
     i_gamer_list := or_empty (r_gamer_list game);
     i_owners_in_group := None |}.

(** GET /api/games/all *)
Definition list_all (d : db) : db * response :=
  let (d1, games) := getGamesWithGamers d in
  match games with
  | Some games => (d1, Reply 200 (Items (map game_item games)))
  | None => (d1, Reply 500 (Error "Failed to fetch games"))
  end.

Definition playable_item (game : result_row) : item :=
  {| i_rowid := r_id game;
     i_game := r_game game;
     i_players := r_players game;
     i_gamer_list := or_empty (r_gamer_list game);
     i_owners_in_group := Some (or_empty (r_owners_in_group game)) |}.

(** GET /api/games/playable; [playersParam] is [req.query.players]. *)
Definition list_playable (d : db) (playersParam : option string) : db * response :=
  match playersParam with
  | None => (d, Reply 400 (Error "Players parameter is required"))
  | Some p =>
      if negb (JS.nonEmpty p)
      then (d, Reply 400 (Error "Players parameter is required"))
      else
        let playerNames := JS.names_of p in
        if (List.length playerNames =? 0)%nat
        then (d, Reply 400 (Error "At least one player name is required"))
        else
          let (d1, games) := getPlayableGames d playerNames in
          match games with
          | Some games => (d1, Reply 200 (Items (map playable_item games)))
          | None => (d1, Reply 500 (Error "Failed to fetch playable games"))
          end
  end.

(** The counters the callbacks of the owner inserts share, the connection
    as they leave it and the response sent so far. *)
Record inserting : Type := {
  conn : db;
  insertCount : nat;
  insertErrors : nat;
  sent : response
}.

(** One [stmt.run([gameId, gamerName], callback)] of the [forEach] and its
    callback; [total] is [gamerNames.length]. *)
Definition gamer_inserted (gameId : Z) (total : nat) (st : inserting) (gamerName : string)
  : inserting :=
  let (d1, r) := db_run (conn st) (INSERT_INTO_game_gamers gameId gamerName) in
  let errors := match r with RunError => S (insertErrors st) | RunOk _ _ => insertErrors st end in
  let count := match r with RunError => insertCount st | RunOk _ _ => S (insertCount st) end in
  if (count + errors =? total)%nat then
    if (0 <? errors)%nat then
      {| conn := fst (db_run d1 ROLLBACK);
         insertCount := count; insertErrors := errors;
         sent := Reply 500 (Error "Failed to add some gamers") |}
    else
      {| conn := fst (db_run d1 COMMIT);
         insertCount := count; insertErrors := errors;
         sent := Reply 200 (Success (Some gameId)) |}
  else
    {| conn := d1; insertCount := count; insertErrors := errors; sent := sent st |}.

(** POST /api/games/all; the arguments are the fields [game], [players] and
    [gamers] of the body, [game] and [gamers] strings when present.  A
    [gamers] that is present, truthy and no string is outside the
    embedding: [gamers.trim()] then throws in the callback of the game
    insert, after BEGIN and the insert, and nothing more is sent. *)
Definition create_game (d : db) (game : option string) (players : JS.value)
  (gamers : option string) : db * response :=
  match game with
  | None => (d, Reply 400 (Error "Game name and players are required"))
  | Some game =>
      if negb (JS.nonEmpty game) || negb (JS.truthy players)
      then (d, Reply 400 (Error "Game name and players are required"))
      else
        let d1 := fst (db_run d BEGIN_TRANSACTION) in
        let (d2, r) := db_run d1 (INSERT_INTO_games game (JS.parseInt players)) in
        match r with
        | RunError => (fst (db_run d2 ROLLBACK), Reply 500 (Error "Failed to add game"))
        | RunOk gameId _ =>
            let committed := (fst (db_run d2 COMMIT), Reply 200 (Success (Some gameId))) in
            match gamers with
            | None => committed
            | Some gamers =>
                if JS.nonEmpty gamers && JS.nonEmpty (JS.trim gamers) then
                  let gamerNames := JS.names_of gamers in
                  if (0 <? List.length gamerNames)%nat then
                    let st := fold_left (gamer_inserted gameId (List.length gamerNames))
                                gamerNames
                                {| conn := d2; insertCount := 0; insertErrors := 0;
                                   sent := Pending |} in
                    (conn st, sent st)
                  else committed
                else committed
            end
        end
  end.

(** DELETE /api/games/game/:id *)
Definition delete_game (d : db) (gameId : Z) : db * response :=
  let d1 := fst (db_run d BEGIN_TRANSACTION) in
  let (d2, r) := db_run d1 (DELETE_FROM_game_gamers_WHERE_game_id gameId) in
  match r with
  | RunError => (fst (db_run d2 ROLLBACK), Reply 500 (Error "Failed to delete game gamers"))
  | RunOk _ _ =>
      let (d3, r) := db_run d2 (DELETE_FROM_games_WHERE_id gameId) in
      match r with
      | RunError => (fst (db_run d3 ROLLBACK), Reply 500 (Error "Failed to delete game"))
      | RunOk _ changes =>
          if (changes =? 0)%nat
          then (fst (db_run d3 ROLLBACK), Reply 404 (Error "Game not found"))
          else (fst (db_run d3 COMMIT), Reply 200 (Success None))
      end
  end.

(** POST /api/games/game/:id/gamers *)
Definition add_owner (d : db) (gameId : Z) (gamer_name : option string) : db * response :=
  match gamer_name with
  | None => (d, Reply 400 (Error "Gamer name is required"))
  | Some gamer_name =>
      if negb (JS.nonEmpty gamer_name) || negb (JS.nonEmpty (JS.trim gamer_name))
      then (d, Reply 400 (Error "Gamer name is required"))
      else
        let (d1, row) := db_get d gameId (JS.trim gamer_name) in
        match row with
        | None => (d1, Reply 500 (Error "Database error"))
        | Some (Some _) => (d1, Reply 400 (Error "Gamer already exists for this game"))
        | Some None =>
            let (d2, r) := db_run d1 (INSERT_INTO_game_gamers gameId (JS.trim gamer_name)) in
            match r with
            | RunError => (d2, Reply 500 (Error "Failed to add gamer"))
            | RunOk lastID _ => (d2, Reply 200 (Success (Some lastID)))
            end
        end
  end.

(** DELETE /api/games/game/:id/gamers *)
Definition remove_owner (d : db) (gameId : Z) (gamer_name : option string) : db * response :=
  match gamer_name with
  | None => (d, Reply 400 (Error "Gamer name is required"))
  | Some gamer_name =>
      if negb (JS.nonEmpty gamer_name)
      then (d, Reply 400 (Error "Gamer name is required"))
      else
        let (d1, r) :=
          db_run d (DELETE_FROM_game_gamers_WHERE_game_id_AND_gamer_name gameId gamer_name) in
        match r with
        | RunError => (d1, Reply 500 (Error "Failed to remove gamer"))
        | RunOk _ changes =>
            if (changes =? 0)%nat
            then (d1, Reply 404 (Error "Gamer not found for this game"))
            else (d1, Reply 200 (Success None))
        end
  end.

(** The requests of the six routes, and the server as a transition system
    over the connection. *)
Inductive request : Type :=
| GET_games_all
| GET_games_playable (players : option string)
| POST_games_all (game : option string) (players : JS.value) (gamers : option string)
| DELETE_game (id : Z)
| POST_game_gamers (id : Z) (gamer_name : option string)
| DELETE_game_gamers (id : Z) (gamer_name : option string).

Definition handle (d : db) (r : request) : db * response :=
  match r with
  | GET_games_all => list_all d
  | GET_games_playable players => list_playable d players
  | POST_games_all game players gamers => create_game d game players gamers
  | DELETE_game id => delete_game d id
  | POST_game_gamers id gamer_name => add_owner d id gamer_name
  | DELETE_game_gamers id gamer_name => remove_owner d id gamer_name
  end.

(** The connections the server can be in: a fresh database file, then any
    sequence of requests. *)
Inductive reachable : db -> Prop :=
| reachable_new : reachable new_db
| reachable_handle d r : reachable d -> reachable (fst (handle d r)).

End Server.

Arguments reachable_new {fault}.
Arguments reachable_handle {fault} d r _.
Arguments db_run : simpl never.

(** The store that never fails from outside. *)
Definition no_fault : nat -> bool := fun _ => false.

(** ** Notions the properties are stated with *)

(** The owner inserts of [create_game] without their callbacks: the
    connection after them and how many failed. *)
Fixpoint insert_gamers (fault : nat -> bool) (d : db) (gameId : Z) (gamerNames : list string)
  : db * nat :=
  match gamerNames with
  | [] => (d, 0%nat)
  | gamerName :: rest =>
      let (d1, r) := db_run fault d (INSERT_INTO_game_gamers gameId gamerName) in
      let (d2, errors) := insert_gamers fault d1 gameId rest in
      (d2, match r with RunError => S errors | RunOk _ _ => errors end)
  end.

(** [gamer_name] owns game [game_id]: the ownership table has that edge. *)
Definition owns (t : tables) (game_id : Z) (gamer_name : string) : Prop :=
  exists r, In r (game_gamers t) /\ gg_game_id r = game_id /\ gg_gamer_name r = gamer_name.

(** How many edge rows the pair has. *)
Definition count_edges (t : tables) (game_id : Z) (gamer_name : string) : nat :=
  List.length (filter (is_edge game_id gamer_name) (game_gamers t)).

(** Within one game a name appears at most once. *)
Definition unique_owners (t : tables) : Prop :=
  forall game_id gamer_name, (count_edges t game_id gamer_name <= 1)%nat.

(** The game exists. *)
Definition game_exists (t : tables) (id : Z) : Prop :=
  exists g, In g (games t) /\ g_id g = id.

(** Every stored owner name is non-empty and is its own trimming. *)
Definition trimmed_name (r : gamer_row) : Prop :=
  gg_gamer_name r <> "" /\ JS.trim (gg_gamer_name r) = gg_gamer_name r.

Definition names_trimmed (t : tables) : Prop := Forall trimmed_name (game_gamers t).

(** The candidate group of a [players] parameter. *)
Definition candidate_names (playersParam : option string) : list string :=
  match playersParam with
  | Some p => JS.names_of p
  | None => []
  end.

(** The names [create_game] inserts for a [gamers] field. *)
Definition owner_names (gamers : option string) : list string :=
  match gamers with
  | Some g => JS.names_of g
  | None => []
  end.

(** The response lists the game: an item carries its id, name and players. *)
Definition lists_game (r : response) (g : game_row) : Prop :=
  exists items it,
    r = Reply 200 (Items items) /\ In it items /\
    i_rowid it = g_id g /\ i_game it = g_game g /\ i_players it = g_players g.

(** The group can play the game, as the query of [getPlayableGames] has
    it: someone of the group owns it, and it takes at least as many players
    as the group has names. *)
Definition playable_by (t : tables) (playerNames : list string) (g : game_row) : Prop :=
  (exists n, In n playerNames /\ owns t (g_id g) n) /\
  Z.of_nat (List.length playerNames) <= g_players g.

(** No statement from the [n]-th on, [k] of them, fails from outside. *)
Definition sound (fault : nat -> bool) (n k : nat) : Prop :=
  forall i, (n <= i < n + k)%nat -> fault i = false.

(** ** The playable route of the earlier server

    [server copy.js] keeps the owners of a game in one comma separated
    column, [gamers], and filters the playable games in JavaScript.  Its
    filter is embedded here for a [players] parameter that is present. *)

Module ServerCopy.

Record row : Type := {
  rowid : Z;
  game : string;
  players : Z;
  gamers : option string
}.

Record item : Type := {
  i_rowid : Z;
  i_game : string;
  i_players : Z;
  i_gamer_list : option string;
  i_owners_in_group : string
}.

(** [a.includes(x)] *)
Definition includes (a : list string) (x : string) : bool := existsb (String.eqb x) a.

Definition playable (rows : list row) (playersParam : string) : list item :=
  let playerList := map JS.trim (JS.split playersParam) in
  filter (fun g => JS.nonEmpty (i_owners_in_group g)
                   && (i_players g >=? Z.of_nat (List.length playerList)))
    (map (fun r =>
            let owners := match gamers r with
                          | Some s => map JS.trim (JS.split s)
                          | None => []
                          end in
            let ownersInGroup := filter (includes playerList) owners in
            {| i_rowid := rowid r;
               i_game := game r;
               i_players := players r;
               i_gamer_list := gamers r;
               i_owners_in_group := JS.join ownersInGroup |}) rows).

End ServerCopy.

(** ** The owners column of the earlier server

    [server copy.js] adds an owner by
    UPDATE games SET gamers = COALESCE(gamers, '') || ',' || :gamer_name
    and removes one by reading the column, filtering the names in
    JavaScript and writing the result back.  The two column values are
    embedded here, for a [gamer_name] that is a string. *)

Module ServerCopyGamers.

(** The value the UPDATE of [POST /api/games/game/:id/gamers] stores. *)
Definition added (gamers : option string) (gamer_name : string) : string :=
  or_empty gamers ++ "," ++ gamer_name.

(** [result.rows[0][0]?.split(',').map(g => g.trim()).filter(Boolean) || []] *)
Definition stored (gamers : option string) : list string :=
  match gamers with
  | Some s => filter JS.nonEmpty (map JS.trim (JS.split s))
  | None => []
  end.

(** [updated], the value [DELETE /api/games/game/:id/gamers] writes back. *)
Definition removed (gamers : option string) (gamer_name : string) : string :=
  JS.join (filter (fun g => negb (g =? gamer_name)%string) (stored gamers)).

End ServerCopyGamers.

(** ** Further notions *)

(** The connection after a sequence of requests. *)
Definition run_requests (fault : nat -> bool) (d : db) (rs : list request) : db :=
  fold_left (fun d r => fst (handle fault d r)) rs d.

(** A property of the tables holds of a connection: of its current
    content and of the content a ROLLBACK would restore. *)
Definition holds (P : tables -> Prop) (d : db) : Prop :=
  P (cur d) /\ forall t, txn d = Some t -> P t.

(** The order of two items by game name, as ORDER BY g.game ASC has it. *)
Definition by_game (a b : item) : Prop := String.leb (i_game a) (i_game b) = true.

(** The same order on the rows of a query. *)
Definition row_by_game (a b : result_row) : Prop :=
  String.leb (r_game a) (r_game b) = true.

(** The item [list_all] shows for a game. *)
Definition item_of_game (t : tables) (g : game_row) : item :=
  {| i_rowid := g_id g;
     i_game := g_game g;
     i_players := g_players g;
     i_gamer_list := JS.join (gamers_of t g);
     i_owners_in_group := None |}.

(** White space at either end of a string, told from its first and its
    last character. *)
Definition first_is_space (s : string) : bool :=
  match s with
  | EmptyString => false
  | String c _ => JS.isWhiteSpace c
  end.

Fixpoint last_is_space (s : string) : bool :=
  match s with
  | EmptyString => false
  | String c EmptyString => JS.isWhiteSpace c
  | String _ s' => last_is_space s'
  end.

Definition outer_space (s : string) : bool := first_is_space s || last_is_space s.


(** The string holds no comma. *)
Fixpoint comma_free (s : string) : bool :=
  match s with
  | EmptyString => true
  | String c s' => negb (Ascii.eqb c ",") && comma_free s'
  end.

(** The names that the parsing gives: each one non-empty, without outer
    white space and without comma. *)
Definition plain_name (n : string) : Prop :=
  n <> "" /\ JS.trim n = n /\ comma_free n = true.

(** The rowids of both tables are positive, distinct and at most the
    sequence value AUTOINCREMENT keeps for the table. *)
Definition ids_bounded (t : tables) : Prop :=
  Forall (fun g => 0 < g_id g <= seq_games t) (games t) /\
  NoDup (map g_id (games t)) /\
  Forall (fun r => 0 < gg_id r <= seq_game_gamers t) (game_gamers t) /\
  NoDup (map gg_id (game_gamers t)).

(** The id was given out before and no game has it now. *)
Definition retired (id : Z) (t : tables) : Prop :=
  id <= seq_games t /\ ~ game_exists t id.

(** ** The string functions *)

Module JSFacts.
Import JS.

Lemma trimStart_cases (s : string) :
  trimStart s = "" \/ exists c t, trimStart s = String c t /\ isWhiteSpace c = false.
Proof.
  induction s as [|c s IH]; simpl.
  - now left.
  - destruct (isWhiteSpace c) eqn:E.
    + exact IH.
    + right. now exists c, s.
Qed.

Lemma trimEnd_head (c : ascii) (t : string) :
  isWhiteSpace c = false -> exists t', trimEnd (String c t) = String c t'.
Proof.
  intros E. simpl. destruct (trimEnd t).
  - rewrite E. now exists "".
  - now eexists.
Qed.

Lemma trimEnd_idem (s : string) : trimEnd (trimEnd s) = trimEnd s.
Proof.
  induction s as [|c s IH]; simpl; [reflexivity|].
  destruct (trimEnd s) as [|c' t] eqn:E.
  - destruct (isWhiteSpace c) eqn:W; simpl; [reflexivity|]. now rewrite W.
  - change (trimEnd (String c (String c' t))) with
      (match trimEnd (String c' t) with
       | "" => if isWhiteSpace c then "" else String c ""
       | t0 => String c t0
       end).
    rewrite IH. reflexivity.
Qed.

Lemma trimStart_head (c : ascii) (t : string) :
  isWhiteSpace c = false -> trimStart (String c t) = String c t.
Proof. intros E. simpl. now rewrite E. Qed.

(** Trimming twice is trimming once. *)
Lemma trim_idem (s : string) : trim (trim s) = trim s.
Proof.
  unfold trim. destruct (trimStart_cases s) as [E | (c & t & E & W)]; rewrite E.
  - reflexivity.
  - destruct (trimEnd_head c t W) as [t' E'].
    rewrite E', (trimStart_head c t' W), <- E'. apply trimEnd_idem.
Qed.

Lemma trim_empty_trimStart (s : string) : trim s = "" -> trimStart s = "".
Proof.
  unfold trim. destruct (trimStart_cases s) as [E | (c & t & E & W)]; [easy|].
  rewrite E. destruct (trimEnd_head c t W) as [t' E']. now rewrite E'.
Qed.

Lemma comma_not_space (c : ascii) : isWhiteSpace c = true -> Ascii.eqb c "," = false.
Proof.
  destruct (Ascii.eqb_spec c ","); [subst; discriminate | reflexivity].
Qed.

Lemma split_blank (s : string) : trimStart s = "" -> split s = [s].
Proof.
  induction s as [|c s IH]; simpl; [reflexivity|].
  destruct (isWhiteSpace c) eqn:W; [|discriminate].
  intros E. rewrite (comma_not_space c W), (IH E). reflexivity.
Qed.

(** A string that trims to nothing holds no name. *)
Lemma names_of_blank (s : string) : trim s = "" -> names_of s = [].
Proof.
  intros E. unfold names_of. rewrite (split_blank s (trim_empty_trimStart s E)).
  simpl. now rewrite E.
Qed.

Lemma nonEmpty_true (s : string) : nonEmpty s = true <-> s <> "".
Proof.
  unfold nonEmpty. destruct (String.eqb_spec s ""); simpl; split; congruence.
Qed.

(** Every name of a comma separated list is non-empty and trimmed. *)
Lemma names_of_trimmed (s n : string) :
  In n (names_of s) -> n <> "" /\ trim n = n.
Proof.
  unfold names_of. rewrite filter_In, in_map_iff.
  intros [(x & <- & _) E]. split; [now apply nonEmpty_true | apply trim_idem].
Qed.

Lemma toNumber_safe (n : Z) : Z.abs n < 2 ^ 53 -> toNumber n = n.
Proof.
  intros H. unfold toNumber.
  assert (L : Z.log2 (Z.abs n) < 53).
  { destruct (Z.eq_dec (Z.abs n) 0) as [->|N]; [reflexivity|].
    apply Z.log2_lt_pow2; lia. }
  destruct (Z.leb_spec (Z.log2 (Z.abs n) + 1 - 53) 0); [reflexivity | lia].
Qed.

(** [parseInt] gives a safe integer back unchanged. *)
Lemma parseInt_safe (n : Z) : Z.abs n < 2 ^ 53 -> parseInt (Num n) = Some n.
Proof.
  intros H. unfold parseInt. rewrite (toNumber_safe n H).
  assert (B : 2 ^ 53 < 10 ^ 21 /\ 10 ^ 21 < Infinity) by (split; reflexivity).
  destruct (Z.leb_spec Infinity (Z.abs n)); [lia|].
  destruct (Z.ltb_spec (Z.abs n) (10 ^ 21)); [reflexivity | lia].
Qed.

End JSFacts.

(** ** The connection *)

Section StoreFacts.
Variable fault : nat -> bool.

Lemma db_run_log (d : db) (s : statement) :
  log (fst (db_run fault d s)) = (log d ++ [Run s])%list.
Proof.
  unfold db_run, faulty, failed, issue.
  destruct s; simpl;
    repeat match goal with
           | |- context [match ?x with _ => _ end] => destruct x; simpl
           end; reflexivity.
Qed.

Lemma begin_idle (d : db) :
  txn d = None ->
  db_run fault d BEGIN_TRANSACTION
  = ({| cur := cur d; txn := Some (cur d); log := (log d ++ [Run BEGIN_TRANSACTION])%list |},
     RunOk 0 0).
Proof. intros E. unfold db_run, issue. now rewrite E. Qed.

Lemma rollback_open (d : db) (t : tables) :
  txn d = Some t ->
  fst (db_run fault d ROLLBACK)
  = {| cur := t; txn := None; log := (log d ++ [Run ROLLBACK])%list |}.
Proof. intros E. unfold db_run, issue. now rewrite E. Qed.

Lemma commit_open (d : db) (t : tables) :
  txn d = Some t ->
  fst (db_run fault d COMMIT)
  = {| cur := cur d; txn := None; log := (log d ++ [Run COMMIT])%list |}.
Proof. intros E. unfold db_run, issue. now rewrite E. Qed.

(** An owner insert either fails and changes nothing, or appends one row
    for the pair; the games, the open transaction and the games sequence
    are as before. *)
Lemma insert_gamer_run (d : db) (game_id : Z) (gamer_name : string) :
  let s := INSERT_INTO_game_gamers game_id gamer_name in
  let id := next_rowid (seq_game_gamers (cur d)) (map gg_id (game_gamers (cur d))) in
  db_run fault d s =
    if fault (List.length (log d))
    then ({| cur := cur d; txn := txn d; log := (log d ++ [Run s])%list |}, RunError)
    else ({| cur := {| games := games (cur d);
                       game_gamers :=
                         (game_gamers (cur d)
                          ++ [{| gg_id := id; gg_game_id := game_id;
                                 gg_gamer_name := gamer_name |}])%list;
                       seq_games := seq_games (cur d);
                       seq_game_gamers := id |};
             txn := txn d;
             log := (log d ++ [Run s])%list |}, RunOk id 1).
Proof.
  unfold db_run, faulty, failed, issue, insert_gamer.
  destruct (fault (List.length (log d))); reflexivity.
Qed.

(** The owner inserts of one game, taken together. *)
Lemma insert_gamers_spec (gameId : Z) (gamerNames : list string) (d : db) :
  let d' := fst (insert_gamers fault d gameId gamerNames) in
  let errors := snd (insert_gamers fault d gameId gamerNames) in
  txn d' = txn d /\
  log d' = (log d ++ map (fun n => Run (INSERT_INTO_game_gamers gameId n)) gamerNames)%list /\
  games (cur d') = games (cur d) /\
  (exists rows,
      game_gamers (cur d') = (game_gamers (cur d) ++ rows)%list /\
      Forall (fun r => gg_game_id r = gameId /\ In (gg_gamer_name r) gamerNames) rows /\
      (errors = 0%nat -> map gg_gamer_name rows = gamerNames)) /\
  (errors = 0%nat <-> sound fault (List.length (log d)) (List.length gamerNames)).
Proof.
  revert d. induction gamerNames as [|n rest IH]; intros d.
  - simpl. repeat split; try (now rewrite app_nil_r).
    + exists []. now rewrite app_nil_r.
    + intros i Hi. lia.
  - cbn [insert_gamers List.length map].
    pose proof (insert_gamer_run d gameId n) as R. cbv zeta in R. rewrite R. clear R.
    destruct (fault (List.length (log d))) eqn:F.
    + match goal with |- context [insert_gamers fault ?x gameId rest] =>
        specialize (IH x); destruct (insert_gamers fault x gameId rest) as [d2 e] end.
      simpl in *. destruct IH as (T & L & G & (rows & R1 & R2 & R3) & S).
      repeat split; try assumption.
      * rewrite L, <- app_assoc. reflexivity.
      * exists rows. repeat split; try assumption.
        -- eapply Forall_impl; [|exact R2]. intros r [? ?]. auto.
        -- discriminate.
      * discriminate.
      * intros H. specialize (H (List.length (log d))). rewrite F in H.
        discriminate H. lia.
    + match goal with |- context [insert_gamers fault ?x gameId rest] =>
        specialize (IH x); destruct (insert_gamers fault x gameId rest) as [d2 e] end.
      simpl in *. destruct IH as (T & L & G & (rows & R1 & R2 & R3) & S).
      repeat split; try assumption.
      * rewrite L, <- app_assoc. reflexivity.
      * eexists (_ :: rows). rewrite R1, <- app_assoc. simpl. repeat split.
        -- constructor; [simpl; auto|].
           eapply Forall_impl; [|exact R2]. intros r [? ?]. auto.
        -- intros E. simpl. now rewrite (R3 E).
      * intros E i Hi. rewrite length_app in S. simpl in S.
        destruct (Nat.eq_dec i (List.length (log d))) as [->|N]; [exact F|].
        apply S; [exact E | lia].
      * intros H. apply S. intros i Hi. rewrite length_app in Hi. simpl in Hi.
        apply H. lia.
Qed.

(** The callbacks answer once, after the last insert: they roll back when
    an insert failed and commit otherwise. *)
Lemma fold_gamer_inserted (gameId : Z) (total : nat) (gamerNames : list string)
  (st : inserting) :
  gamerNames <> [] ->
  (insertCount st + insertErrors st + List.length gamerNames = total)%nat ->
  let d' := fst (insert_gamers fault (conn st) gameId gamerNames) in
  let errors := (insertErrors st + snd (insert_gamers fault (conn st) gameId gamerNames))%nat in
  let res := fold_left (gamer_inserted fault gameId total) gamerNames st in
  conn res = fst (db_run fault d' (if (0 <? errors)%nat then ROLLBACK else COMMIT)) /\
  sent res = if (0 <? errors)%nat
             then Reply 500 (Error "Failed to add some gamers")
             else Reply 200 (Success (Some gameId)).
Proof.
  revert st. induction gamerNames as [|n rest IH]; intros st NE T; [congruence|].
  destruct rest as [|n2 rest].
  - cbn [fold_left insert_gamers]. unfold gamer_inserted.
    cbn [List.length] in T.
    destruct (db_run fault (conn st) (INSERT_INTO_game_gamers gameId n)) as [d1 [|id c]];
      cbn [fst snd].
    + replace (insertCount st + S (insertErrors st) =? total)%nat with true
        by (symmetry; apply Nat.eqb_eq; lia).
      replace (insertErrors st + 1)%nat with (S (insertErrors st)) by lia.
      split; reflexivity.
    + replace (S (insertCount st) + insertErrors st =? total)%nat with true
        by (symmetry; apply Nat.eqb_eq; lia).
      rewrite Nat.add_0_r.
      destruct (0 <? insertErrors st)%nat; split; reflexivity.
  - assert (NE' : n2 :: rest <> []) by discriminate.
    cbn [List.length] in T.
    set (names := n2 :: rest) in *.
    cbn [fold_left insert_gamers].
    remember (gamer_inserted fault gameId total st n) as st1 eqn:E1.
    unfold gamer_inserted in E1.
    destruct (db_run fault (conn st) (INSERT_INTO_game_gamers gameId n)) as [d1 r].
    specialize (IH st1 NE').
    destruct r as [|id c].
    + replace (insertCount st + S (insertErrors st) =? total)%nat with false in E1
        by (symmetry; apply Nat.eqb_neq; subst names; cbn [List.length] in T; lia).
      subst st1. cbn [conn insertCount insertErrors sent] in IH.
      destruct (insert_gamers fault d1 gameId names) as [d2 e].
      cbn [fst snd] in *.
      replace (insertErrors st + S e)%nat with (S (insertErrors st) + e)%nat by lia.
      apply IH. subst names. cbn [List.length] in *. lia.
    + replace (S (insertCount st) + insertErrors st =? total)%nat with false in E1
        by (symmetry; apply Nat.eqb_neq; subst names; cbn [List.length] in T; lia).
      subst st1. cbn [conn insertCount insertErrors sent] in IH.
      destruct (insert_gamers fault d1 gameId names) as [d2 e].
      cbn [fst snd] in *.
      apply IH. subst names. cbn [List.length] in *. lia.
Qed.

End StoreFacts.

(** ** The handlers, statement by statement *)

Section HandlerFacts.
Variable fault : nat -> bool.

Lemma owner_names_blank (g : string) :
  JS.nonEmpty g && JS.nonEmpty (JS.trim g) = false -> JS.names_of g = [].
Proof.
  intros E. apply andb_false_iff in E. destruct E as [E|E].
  - unfold JS.nonEmpty in E. apply negb_false_iff, String.eqb_eq in E. now subst.
  - unfold JS.nonEmpty in E. apply negb_false_iff, String.eqb_eq in E.
    now apply JSFacts.names_of_blank.
Qed.

(** [create_game] on an input that passes its check: the game insert, the
    owner inserts, then one ROLLBACK or COMMIT. *)
Lemma create_game_eq (d : db) (game : string) (players : JS.value) (gamers : option string) :
  game <> "" -> JS.truthy players = true ->
  create_game fault d (Some game) players gamers =
    let d1 := fst (db_run fault d BEGIN_TRANSACTION) in
    let (d2, r) := db_run fault d1 (INSERT_INTO_games game (JS.parseInt players)) in
    match r with
    | RunError => (fst (db_run fault d2 ROLLBACK), Reply 500 (Error "Failed to add game"))
    | RunOk gameId _ =>
        let (d3, errors) := insert_gamers fault d2 gameId (owner_names gamers) in
        if (0 <? errors)%nat
        then (fst (db_run fault d3 ROLLBACK), Reply 500 (Error "Failed to add some gamers"))
        else (fst (db_run fault d3 COMMIT), Reply 200 (Success (Some gameId)))
    end.
Proof.
  intros G P. unfold create_game.
  apply JSFacts.nonEmpty_true in G. rewrite G, P. cbn [negb orb]. cbv zeta.
  destruct (db_run fault (fst (db_run fault d BEGIN_TRANSACTION))
              (INSERT_INTO_games game (JS.parseInt players))) as [d2 [|gameId c]];
    [reflexivity|].
  destruct gamers as [g|]; cbn [owner_names]; [|reflexivity].
  destruct (JS.nonEmpty g && JS.nonEmpty (JS.trim g)) eqn:B.
  - destruct (JS.names_of g) as [|n rest] eqn:N; [reflexivity|].
    change (0 <? List.length (n :: rest))%nat with true. cbv iota.
    assert (NE : n :: rest <> []) by discriminate.
    pose proof (fold_gamer_inserted fault gameId (List.length (n :: rest)) (n :: rest)
                  {| conn := d2; insertCount := 0; insertErrors := 0; sent := Pending |}
                  NE eq_refl) as F.
    cbv zeta in F. cbn [conn insertErrors Nat.add] in F.
    destruct (insert_gamers fault d2 gameId (n :: rest)) as [d3 e].
    cbn [fst snd] in F. destruct F as [F1 F2]. rewrite F1, F2.
    destruct (0 <? e)%nat; reflexivity.
  - rewrite (owner_names_blank g B). reflexivity.
Qed.

(** The data statements leave the transaction as it is. *)
Lemma db_run_txn (d : db) (s : statement) :
  s <> BEGIN_TRANSACTION -> s <> COMMIT -> s <> ROLLBACK ->
  txn (fst (db_run fault d s)) = txn d.
Proof.
  intros B C R. unfold db_run, faulty, failed, issue.
  destruct s; try congruence; simpl;
    repeat match goal with
           | |- context [match ?x with _ => _ end] => destruct x; simpl
           end; reflexivity.
Qed.

Lemma insert_game_run (d : db) (game : string) (players : option Z) :
  let s := INSERT_INTO_games game players in
  db_run fault d s =
    match (if fault (List.length (log d)) then None else players) with
    | None => ({| cur := cur d; txn := txn d; log := (log d ++ [Run s])%list |}, RunError)
    | Some p =>
        ({| cur := fst (insert_game (cur d) game p);
            txn := txn d;
            log := (log d ++ [Run s])%list |},
         RunOk (next_rowid (seq_games (cur d)) (map g_id (games (cur d)))) 1)
    end.
Proof.
  unfold db_run, faulty, failed, issue.
  destruct (fault (List.length (log d))); [reflexivity|].
  destruct players; reflexivity.
Qed.

Lemma delete_gamers_run (d : db) (s : statement) (p : gamer_row -> bool) :
  (exists game_id, s = DELETE_FROM_game_gamers_WHERE_game_id game_id /\ p = of_game game_id) \/
  (exists game_id gamer_name,
      s = DELETE_FROM_game_gamers_WHERE_game_id_AND_gamer_name game_id gamer_name /\
      p = is_edge game_id gamer_name) ->
  db_run fault d s =
    if fault (List.length (log d))
    then ({| cur := cur d; txn := txn d; log := (log d ++ [Run s])%list |}, RunError)
    else ({| cur := fst (delete_gamers (cur d) p);
             txn := txn d;
             log := (log d ++ [Run s])%list |},
          RunOk 0 (List.length (filter p (game_gamers (cur d))))).
Proof.
  intros [(g & -> & ->) | (g & n & -> & ->)];
    unfold db_run, faulty, failed, issue;
    destruct (fault (List.length (log d))); reflexivity.
Qed.

Lemma delete_game_row_run (d : db) (id : Z) :
  let s := DELETE_FROM_games_WHERE_id id in
  db_run fault d s =
    if fault (List.length (log d))
    then ({| cur := cur d; txn := txn d; log := (log d ++ [Run s])%list |}, RunError)
    else ({| cur := fst (delete_games (cur d) (has_id id));
             txn := txn d;
             log := (log d ++ [Run s])%list |},
          RunOk 0 (List.length (filter (has_id id) (games (cur d))))).
Proof.
  unfold db_run, faulty, failed, issue.
  destruct (fault (List.length (log d))); reflexivity.
Qed.

(** What [create_game] does from an idle connection on an input that
    passes its check. *)
Lemma create_game_outcome (d : db) (game : string) (players : JS.value)
  (gamers : option string) :
  txn d = None -> game <> "" -> JS.truthy players = true ->
  let d' := fst (create_game fault d (Some game) players gamers) in
  let resp := snd (create_game fault d (Some game) players gamers) in
  let L := List.length (log d) in
  let names := owner_names gamers in
  let insert := Run (INSERT_INTO_games game (JS.parseInt players)) in
  txn d' = None /\
  match (if fault (S L) then None else JS.parseInt players) with
  | None =>
      resp = Reply 500 (Error "Failed to add game") /\
      cur d' = cur d /\
      log d' = (log d ++ [Run BEGIN_TRANSACTION; insert; Run ROLLBACK])%list
  | Some p =>
      let id := next_rowid (seq_games (cur d)) (map g_id (games (cur d))) in
      let inserts := map (fun n => Run (INSERT_INTO_game_gamers id n)) names in
      (sound fault (S (S L)) (List.length names) /\
       resp = Reply 200 (Success (Some id)) /\
       log d' = (log d ++ Run BEGIN_TRANSACTION :: insert :: inserts ++ [Run COMMIT])%list /\
       games (cur d') = (games (cur d) ++ [{| g_id := id; g_game := game; g_players := p |}])%list /\
       exists rows,
         game_gamers (cur d') = (game_gamers (cur d) ++ rows)%list /\
         Forall (fun r => gg_game_id r = id) rows /\
         map gg_gamer_name rows = names)
      \/
      (~ sound fault (S (S L)) (List.length names) /\
       resp = Reply 500 (Error "Failed to add some gamers") /\
       log d' = (log d ++ Run BEGIN_TRANSACTION :: insert :: inserts ++ [Run ROLLBACK])%list /\
       cur d' = cur d)
  end.
Proof.
  intros I G P. cbv zeta. rewrite (create_game_eq d game players gamers G P).
  rewrite (begin_idle fault d I). cbn [fst]. rewrite insert_game_run. cbv zeta.
  cbn [log cur txn]. rewrite length_app. cbn [List.length]. rewrite Nat.add_1_r.
  destruct (if fault (S (List.length (log d))) then None else JS.parseInt players)
    as [p|] eqn:E.
  - match goal with |- context [insert_gamers fault ?x ?i ?n] =>
      pose proof (insert_gamers_spec fault i n x) as S;
      destruct (insert_gamers fault x i n) as [d3 e] end.
    cbv zeta in S. cbn [fst snd log cur txn games game_gamers insert_game] in S.
    destruct S as (T & Lg & Gm & (rows & R1 & R2 & R3) & Snd).
    rewrite !length_app in Snd. cbn [List.length] in Snd.
    replace (List.length (log d) + 1 + 1)%nat with (S (S (List.length (log d)))) in Snd by lia.
    destruct e as [|e].
    + change (0 <? 0)%nat with false. cbv iota. cbn [fst snd].
      rewrite (commit_open fault d3 _ T). cbn [txn cur log]. split; [reflexivity|].
      left. split; [now apply Snd|]. split; [reflexivity|]. split.
      * rewrite Lg, <- !app_assoc. reflexivity.
      * split; [exact Gm|]. exists rows. split; [exact R1|]. split; [|now apply R3].
        eapply Forall_impl; [|exact R2]. now intros r [? _].
    + change (0 <? S e)%nat with true. cbv iota. cbn [fst snd].
      rewrite (rollback_open fault d3 _ T). cbn [txn cur log]. split; [reflexivity|].
      right. split; [intros H; apply Snd in H; discriminate|]. split; [reflexivity|].
      split; [|reflexivity]. rewrite Lg, <- !app_assoc. reflexivity.
  - cbn [fst snd].
    erewrite rollback_open by reflexivity. cbn [txn cur log].
    rewrite <- !app_assoc. repeat split.
Qed.

(** [delete_game] from an idle connection. *)
Lemma delete_game_eq (d : db) (id : Z) :
  txn d = None ->
  let L := List.length (log d) in
  let del_gamers := Run (DELETE_FROM_game_gamers_WHERE_game_id id) in
  let del_game := Run (DELETE_FROM_games_WHERE_id id) in
  delete_game fault d id =
    if fault (S L) then
      ({| cur := cur d; txn := None;
          log := (log d ++ [Run BEGIN_TRANSACTION; del_gamers; Run ROLLBACK])%list |},
       Reply 500 (Error "Failed to delete game gamers"))
    else if fault (S (S L)) then
      ({| cur := cur d; txn := None;
          log := (log d ++ [Run BEGIN_TRANSACTION; del_gamers; del_game; Run ROLLBACK])%list |},
       Reply 500 (Error "Failed to delete game"))
    else if (List.length (filter (has_id id) (games (cur d))) =? 0)%nat then
      ({| cur := cur d; txn := None;
          log := (log d ++ [Run BEGIN_TRANSACTION; del_gamers; del_game; Run ROLLBACK])%list |},
       Reply 404 (Error "Game not found"))
    else
      ({| cur := {| games := filter (fun g => negb (has_id id g)) (games (cur d));
                    game_gamers := filter (fun r => negb (of_game id r)) (game_gamers (cur d));
                    seq_games := seq_games (cur d);
                    seq_game_gamers := seq_game_gamers (cur d) |};
          txn := None;
          log := (log d ++ [Run BEGIN_TRANSACTION; del_gamers; del_game; Run COMMIT])%list |},
       Reply 200 (Success None)).
Proof.
  intros I. cbv zeta. unfold delete_game.
  rewrite (begin_idle fault d I). cbn [fst].
  rewrite (delete_gamers_run _ _ (of_game id)) by (left; now exists id).
  cbn [log cur txn]. rewrite length_app. cbn [List.length]. rewrite Nat.add_1_r.
  destruct (fault (S (List.length (log d)))).
  - erewrite rollback_open by reflexivity. cbn [log]. now rewrite <- !app_assoc.
  - rewrite delete_game_row_run. cbv zeta. cbn [log cur txn].
    rewrite !length_app. cbn [List.length].
    replace (List.length (log d) + 1 + 1)%nat with (S (S (List.length (log d)))) by lia.
    destruct (fault (S (S (List.length (log d))))).
    + erewrite rollback_open by reflexivity. cbn [log]. now rewrite <- !app_assoc.
    + cbn [delete_gamers delete_games fst games].
      destruct (List.length (filter (has_id id) (games (cur d))) =? 0)%nat.
      * erewrite rollback_open by reflexivity. cbn [log]. now rewrite <- !app_assoc.
      * erewrite commit_open by reflexivity. cbn [log cur]. now rewrite <- !app_assoc.
Qed.

(** [add_owner] on a name that is not blank. *)
Lemma add_owner_eq (d : db) (id : Z) (gamer_name : string) :
  JS.trim gamer_name <> "" ->
  let L := List.length (log d) in
  let name := JS.trim gamer_name in
  let get := Get_id_FROM_game_gamers id name in
  let insert := Run (INSERT_INTO_game_gamers id name) in
  add_owner fault d id (Some gamer_name) =
    if fault L then
      ({| cur := cur d; txn := txn d; log := (log d ++ [get])%list |},
       Reply 500 (Error "Database error"))
    else
      match find (is_edge id name) (game_gamers (cur d)) with
      | Some _ =>
          ({| cur := cur d; txn := txn d; log := (log d ++ [get])%list |},
           Reply 400 (Error "Gamer already exists for this game"))
      | None =>
          if fault (S L) then
            ({| cur := cur d; txn := txn d; log := (log d ++ [get; insert])%list |},
             Reply 500 (Error "Failed to add gamer"))
          else
            ({| cur := fst (insert_gamer (cur d) id name);
                txn := txn d;
                log := (log d ++ [get; insert])%list |},
             Reply 200 (Success (Some (snd (insert_gamer (cur d) id name)))))
      end.
Proof.
  intros T. cbv zeta. unfold add_owner.
  assert (N : JS.nonEmpty gamer_name = true).
  { apply JSFacts.nonEmpty_true. intros ->. now apply T. }
  apply JSFacts.nonEmpty_true in T. rewrite N, T. cbn [negb orb].
  unfold db_get, faulty, failed, issue.
  destruct (fault (List.length (log d))); [reflexivity|].
  destruct (find (is_edge id (JS.trim gamer_name)) (game_gamers (cur d)));
    cbn [option_map]; [reflexivity|].
  rewrite insert_gamer_run. cbn [log cur txn].
  rewrite length_app. cbn [List.length]. rewrite Nat.add_1_r.
  destruct (fault (S (List.length (log d)))); cbn [insert_gamer fst snd];
    now rewrite <- !app_assoc.
Qed.

(** [remove_owner] on a name that is not empty. *)
Lemma remove_owner_eq (d : db) (id : Z) (gamer_name : string) :
  gamer_name <> "" ->
  let delete := Run (DELETE_FROM_game_gamers_WHERE_game_id_AND_gamer_name id gamer_name) in
  remove_owner fault d id (Some gamer_name) =
    if fault (List.length (log d)) then
      ({| cur := cur d; txn := txn d; log := (log d ++ [delete])%list |},
       Reply 500 (Error "Failed to remove gamer"))
    else
      ({| cur := fst (delete_gamers (cur d) (is_edge id gamer_name));
          txn := txn d;
          log := (log d ++ [delete])%list |},
       if (count_edges (cur d) id gamer_name =? 0)%nat
       then Reply 404 (Error "Gamer not found for this game")
       else Reply 200 (Success None)).
Proof.
  intros N. cbv zeta. unfold remove_owner.
  apply JSFacts.nonEmpty_true in N. rewrite N. cbn [negb].
  rewrite (delete_gamers_run d _ (is_edge id gamer_name))
    by (right; now exists id, gamer_name).
  destruct (fault (List.length (log d))); [reflexivity|].
  unfold count_edges.
  destruct (List.length (filter (is_edge id gamer_name) (game_gamers (cur d))) =? 0)%nat;
    reflexivity.
Qed.

End HandlerFacts.

(** ** What holds of every connection the server reaches *)

Section Invariants.
Variable fault : nat -> bool.

Lemma Forall_filter_keep {A : Type} (P : A -> Prop) (f : A -> bool) (l : list A) :
  Forall P l -> Forall P (filter f l).
Proof.
  intros H. apply Forall_forall. intros x Hx. apply filter_In in Hx.
  rewrite Forall_forall in H. now apply H.
Qed.

(** No handler leaves a transaction open, and every handler stores owner
    names trimmed and non-empty. *)
Lemma handle_invariant (d : db) (r : request) :
  txn d = None /\ names_trimmed (cur d) ->
  txn (fst (handle fault d r)) = None /\ names_trimmed (cur (fst (handle fault d r))).
Proof.
  intros [I N]. destruct r as [|p|game players gamers|id|id n|id n]; cbn [handle].
  - unfold list_all, getGamesWithGamers, db_all, faulty, failed, issue.
    destruct (fault (List.length (log d))); now split.
  - unfold list_playable, getPlayableGames, db_all, faulty, failed, issue.
    destruct p as [p|]; [|now split].
    destruct (negb (JS.nonEmpty p)); [now split|].
    destruct (List.length (JS.names_of p) =? 0)%nat; [now split|].
    destruct (fault (List.length (log d))); now split.
  - destruct game as [game|]; [|now split].
    destruct (JS.nonEmpty game) eqn:G;
      [|unfold create_game; rewrite G; cbn [negb orb fst]; now split].
    destruct (JS.truthy players) eqn:P;
      [|unfold create_game; rewrite G, P; cbn [negb orb fst]; now split].
    apply JSFacts.nonEmpty_true in G.
    pose proof (create_game_outcome fault d game players gamers I G P) as O.
    cbv zeta in O. destruct O as [T O]. split; [exact T|].
    destruct (if fault (S (List.length (log d))) then None else JS.parseInt players).
    + destruct O as [(_ & _ & _ & _ & rows & R1 & _ & R3) | (_ & _ & _ & C)].
      * unfold names_trimmed. rewrite R1. apply Forall_app. split; [exact N|].
        apply Forall_forall. intros row Hrow.
        assert (Hn : In (gg_gamer_name row) (owner_names gamers)).
        { rewrite <- R3. now apply in_map. }
        destruct gamers as [g|]; [|contradiction].
        exact (JSFacts.names_of_trimmed g _ Hn).
      * now rewrite C.
    + destruct O as (_ & C & _). now rewrite C.
  - rewrite (delete_game_eq fault d id I). cbv zeta.
    repeat match goal with
           | |- context [if ?b then _ else _] => destruct b
           end; cbn [fst txn cur]; split; trivial.
    now apply Forall_filter_keep.
  - destruct n as [n|]; [|now split].
    destruct (String.eqb_spec (JS.trim n) "") as [E|E].
    + unfold add_owner. rewrite E. change (JS.nonEmpty "") with false.
      cbn [negb]. rewrite orb_true_r. cbn [fst]. now split.
    + rewrite (add_owner_eq fault d id n E). cbv zeta.
      repeat match goal with
             | |- context [if ?b then _ else _] => destruct b
             | |- context [match ?b with Some _ => _ | None => _ end] => destruct b
             end; cbn [fst txn cur]; split; trivial.
      unfold names_trimmed. cbn [insert_gamer fst game_gamers].
      apply Forall_app. split; [exact N|]. constructor; [|constructor].
      split; cbn [gg_gamer_name]; [exact E | apply JSFacts.trim_idem].
  - destruct n as [n|]; [|now split].
    destruct (String.eqb_spec n "") as [E|E].
    + subst. now split.
    + rewrite (remove_owner_eq fault d id n E). cbv zeta.
      destruct (fault (List.length (log d))); cbn [fst txn cur]; split; trivial.
      now apply Forall_filter_keep.
Qed.

Lemma reachable_invariant (d : db) :
  reachable fault d -> txn d = None /\ names_trimmed (cur d).
Proof.
  induction 1 as [|d r _ IH].
  - split; [reflexivity | constructor].
  - now apply handle_invariant.
Qed.

End Invariants.

(** ** The two queries *)

Section QueryFacts.

Lemma In_insert_row (r x : result_row) (l : list result_row) :
  In x (insert_row r l) <-> x = r \/ In x l.
Proof.
  induction l as [|h t IH]; simpl.
  - intuition.
  - destruct (String.leb (r_game r) (r_game h)); simpl; [intuition|].
    rewrite IH. intuition.
Qed.

(** Ordering the rows neither adds nor drops one. *)
Lemma In_order_by_game (x : result_row) (l : list result_row) :
  In x (order_by_game l) <-> In x l.
Proof.
  induction l as [|h t IH]; simpl; [reflexivity|].
  rewrite In_insert_row, IH. intuition.
Qed.

Lemma order_by_game_nil (l : list result_row) : order_by_game l = [] <-> l = [].
Proof.
  split; [|now intros ->].
  destruct l as [|h t]; [reflexivity|]. intros E.
  assert (H : In h (order_by_game (h :: t))) by (apply In_order_by_game; now left).
  rewrite E in H. contradiction.
Qed.

Lemma distinct_nil (l : list string) : distinct l = [] <-> l = [].
Proof. destruct l; simpl; split; congruence. Qed.

Lemma group_concat_none (l : list string) : group_concat l = None <-> l = [].
Proof. destruct l; simpl; split; congruence. Qed.

Lemma in_group_In (playerNames : list string) (n : string) :
  in_group playerNames n = true <-> In n playerNames.
Proof.
  unfold in_group. rewrite existsb_exists. split.
  - intros (x & Hx & E). apply String.eqb_eq in E. now subst.
  - intros H. exists n. split; [exact H | apply String.eqb_refl].
Qed.

Lemma gamers_of_owns (t : tables) (g : game_row) (n : string) :
  In n (gamers_of t g) <-> owns t (g_id g) n.
Proof.
  unfold gamers_of, owns, of_game. rewrite in_map_iff. split.
  - intros (r & E & H). apply filter_In in H. destruct H as [H1 H2].
    apply Z.eqb_eq in H2. now exists r.
  - intros (r & H1 & H2 & H3). exists r. split; [exact H3|].
    apply filter_In. split; [exact H1 | now apply Z.eqb_eq].
Qed.

(** The HAVING clause keeps the row of a game exactly when the group can
    play it. *)
Lemma having_playable (t : tables) (playerNames : list string) (g : game_row) :
  having (List.length playerNames) (playable_row t playerNames g) = true
  <-> playable_by t playerNames g.
Proof.
  unfold having, playable_by. cbn [r_players r_owners_in_group playable_row].
  rewrite andb_true_iff, Z.geb_le.
  assert (O : match group_concat (distinct (filter (in_group playerNames) (gamers_of t g)))
              with Some _ => true | None => false end = true
              <-> exists n, In n playerNames /\ owns t (g_id g) n).
  { destruct (filter (in_group playerNames) (gamers_of t g)) as [|n l] eqn:F.
    - simpl. split; [discriminate|]. intros (n & H1 & H2).
      assert (H : In n (filter (in_group playerNames) (gamers_of t g))).
      { apply filter_In. split; [now apply gamers_of_owns | now apply in_group_In]. }
      rewrite F in H. contradiction.
    - simpl. split; [intros _|reflexivity].
      assert (H : In n (filter (in_group playerNames) (gamers_of t g)))
        by (rewrite F; now left).
      apply filter_In in H. destruct H as [H1 H2].
      exists n. split; [now apply in_group_In | now apply gamers_of_owns]. }
  rewrite O. tauto.
Qed.

(** The rows of the playable query: the playable games, one row each. *)
Lemma select_playable_games_In (t : tables) (playerNames : list string) (x : result_row) :
  In x (select_playable_games t playerNames)
  <-> exists g, In g (games t) /\ playable_by t playerNames g /\
                x = playable_row t playerNames g.
Proof.
  unfold select_playable_games. rewrite In_order_by_game, filter_In, in_map_iff. split.
  - intros [(g & <- & Hg) H]. exists g. split; [exact Hg|]. split; [|reflexivity].
    now apply having_playable.
  - intros (g & Hg & P & ->). split; [now exists g | now apply having_playable].
Qed.

End QueryFacts.

(** ** The playable games of a group *)

Lemma list_playable_eq (fault : nat -> bool) (d : db) (p : string) :
  JS.names_of p <> [] ->
  list_playable fault d (Some p) =
    if fault (List.length (log d)) then
      (failed d (All (SELECT_playable_games (JS.names_of p))),
       Reply 500 (Error "Failed to fetch playable games"))
    else
      (failed d (All (SELECT_playable_games (JS.names_of p))),
       Reply 200 (Items (map playable_item
                           (select_playable_games (cur d) (JS.names_of p))))).
Proof.
  intros NE. unfold list_playable.
  destruct (JS.nonEmpty p) eqn:E.
  - cbn [negb]. destruct (JS.names_of p) as [|n l] eqn:N; [congruence|].
    change (List.length (n :: l) =? 0)%nat with false. cbv iota.
    unfold getPlayableGames, db_all, faulty.
    destruct (fault (List.length (log d))); reflexivity.
  - unfold JS.nonEmpty in E. apply negb_false_iff, String.eqb_eq in E. subst.
    now contradiction NE.
Qed.

(** C1, as the code has it.  For a non-empty group G and a query that the
    store answers, [list_playable] lists a game if and only if the game is
    in the catalogue, some owner of it is a member of G, and its players
    value is at least |G|, the number of names in G: the comparison is
    [g.players >= |G|], not [<=]. *)
Theorem list_playable_iff (fault : nat -> bool) (d : db) (p : string) (g : game_row) :
  candidate_names (Some p) <> [] ->
  fault (List.length (log d)) = false ->
  let G := candidate_names (Some p) in
  lists_game (snd (list_playable fault d (Some p))) g
  <-> In g (games (cur d)) /\
      (exists n, In n G /\ owns (cur d) (g_id g) n) /\
      Z.of_nat (List.length G) <= g_players g.
Proof.
  cbn [candidate_names]. intros NE F.
  rewrite (list_playable_eq fault d p NE), F. cbn [snd]. unfold lists_game. split.
  - intros (items & it & E & Hit & I1 & I2 & I3).
    injection E as <-. apply in_map_iff in Hit. destruct Hit as (x & <- & Hx).
    apply select_playable_games_In in Hx. destruct Hx as (g' & Hg' & P & ->).
    cbn in I1, I2, I3.
    assert (g' = g) by (destruct g', g; cbn in *; congruence). subst g'.
    split; [exact Hg' | exact P].
  - intros (Hg & P). eexists. exists (playable_item (playable_row (cur d) (JS.names_of p) g)).
    split; [reflexivity|]. split; [|now cbn].
    apply in_map. apply select_playable_games_In. now exists g.
Qed.

Lemma list_playable_iff_witness :
  let d := fst (create_game no_fault new_db (Some "Catan") (JS.Num 3) (Some "Alice,Bob")) in
  let g := {| g_id := 1; g_game := "Catan"; g_players := 3 |} in
  lists_game (snd (list_playable no_fault d (Some "Alice, Bob ,Carol"))) g
  <-> In g (games (cur d)) /\
      (exists n, In n (candidate_names (Some "Alice, Bob ,Carol")) /\ owns (cur d) 1 n) /\
      Z.of_nat (List.length (candidate_names (Some "Alice, Bob ,Carol"))) <= 3.
Proof.
  intros d g.
  apply (list_playable_iff no_fault d "Alice, Bob ,Carol" g).
  - vm_compute. discriminate.
  - reflexivity.
Defined.

(** C1 as the specification words it fails: a game for three, owned by
    Alice, is listed for the group of Alice alone, although its players
    value exceeds the size of the group. *)
Lemma list_playable_larger_game :
  let d := fst (create_game no_fault new_db (Some "Catan") (JS.Num 3) (Some "Alice")) in
  let g := {| g_id := 1; g_game := "Catan"; g_players := 3 |} in
  let G := candidate_names (Some "Alice") in
  In g (games (cur d)) /\ G = ["Alice"] /\
  lists_game (snd (list_playable no_fault d (Some "Alice"))) g /\
  ~ (lists_game (snd (list_playable no_fault d (Some "Alice"))) g
     <-> (exists n, In n G /\ owns (cur d) (g_id g) n) /\
         g_players g <= Z.of_nat (List.length G)).
Proof.
  intros d g G.
  assert (L : lists_game (snd (list_playable no_fault d (Some "Alice"))) g).
  { eexists. eexists. split; [vm_compute; reflexivity|].
    split; [left; reflexivity|]. repeat split. }
  split; [left; reflexivity|]. split; [reflexivity|]. split; [exact L|].
  intros [H _]. destruct (H L) as [_ C]. vm_compute in C. now apply C.
Qed.

(** C6, as the code has it.  An input whose candidate group is empty (no
    parameter, an empty one, or one of blanks and commas only) is refused
    with a ValidationError and the connection is as before, no statement
    having been sent, so that the answer is never an empty list; for a
    non-empty group G under which no game passes the test of the query (an
    owner in G and a players value of at least |G|), the answer, when the
    store answers the query, is the empty list and not an error. *)
Theorem list_playable_empty (fault : nat -> bool) (d : db) (playersParam : option string) :
  (candidate_names playersParam = [] ->
   fst (list_playable fault d playersParam) = d /\
   failure_of (snd (list_playable fault d playersParam)) = Some ValidationError /\
   snd (list_playable fault d playersParam) <> Reply 200 (Items [])) /\
  (candidate_names playersParam <> [] ->
   fault (List.length (log d)) = false ->
   (forall g, In g (games (cur d)) ->
              ~ playable_by (cur d) (candidate_names playersParam) g) ->
   snd (list_playable fault d playersParam) = Reply 200 (Items []) /\
   failure_of (snd (list_playable fault d playersParam)) = None).
Proof.
  split.
  - intros E. destruct playersParam as [p|]; cbn [candidate_names] in E.
    + unfold list_playable. destruct (negb (JS.nonEmpty p)).
      * repeat split. discriminate.
      * rewrite E. cbn. repeat split. discriminate.
    + cbn. repeat split. discriminate.
  - intros NE F H. destruct playersParam as [p|]; cbn [candidate_names] in *; [|congruence].
    rewrite (list_playable_eq fault d p NE), F. cbn [snd].
    destruct (select_playable_games (cur d) (JS.names_of p)) as [|x l] eqn:S.
    + split; reflexivity.
    + exfalso.
      assert (Hx : In x (select_playable_games (cur d) (JS.names_of p)))
        by (rewrite S; now left).
      apply select_playable_games_In in Hx. destruct Hx as (g & Hg & P & _).
      exact (H g Hg P).
Qed.

(** C6 as the specification words it fails: under the group of Alice
    alone no game qualifies as the specification has it (an owner in the
    group and players <= |G|), Catan being a game for three; yet the answer
    is not the empty list, it lists Catan. *)
Lemma list_playable_unqualified_listed :
  let d := fst (create_game no_fault new_db (Some "Catan") (JS.Num 3) (Some "Alice")) in
  let G := candidate_names (Some "Alice") in
  G <> [] /\
  (forall g, In g (games (cur d)) ->
             ~ ((exists n, In n G /\ owns (cur d) (g_id g) n) /\
                g_players g <= Z.of_nat (List.length G))) /\
  snd (list_playable no_fault d (Some "Alice"))
  = Reply 200 (Items [{| i_rowid := 1; i_game := "Catan"; i_players := 3;
                         i_gamer_list := "Alice"; i_owners_in_group := Some "Alice" |}]) /\
  snd (list_playable no_fault d (Some "Alice")) <> Reply 200 (Items []).
Proof.
  cbv zeta. split; [vm_compute; discriminate|]. split.
  - intros g Hg [_ C]. vm_compute in Hg. destruct Hg as [<-|[]].
    vm_compute in C. now apply C.
  - split; [reflexivity | vm_compute; discriminate].
Qed.

Lemma list_playable_empty_witness :
  let d := fst (create_game no_fault new_db (Some "Catan") (JS.Num 3) (Some "Alice")) in
  (fst (list_playable no_fault d (Some " , ,")) = d /\
   failure_of (snd (list_playable no_fault d (Some " , ,"))) = Some ValidationError /\
   snd (list_playable no_fault d (Some " , ,")) <> Reply 200 (Items [])) /\
  (snd (list_playable no_fault d (Some "Zoe")) = Reply 200 (Items []) /\
   failure_of (snd (list_playable no_fault d (Some "Zoe"))) = None).
Proof.
  intros d. split.
  - apply (proj1 (list_playable_empty no_fault d (Some " , ,"))). reflexivity.
  - apply (proj2 (list_playable_empty no_fault d (Some "Zoe"))).
    + vm_compute. discriminate.
    + reflexivity.
    + intros g Hg [(n & Hn & (r & Hr & _ & E)) _].
      vm_compute in Hn. destruct Hn as [<-|[]].
      vm_compute in Hr. destruct Hr as [<-|[]]. vm_compute in E. discriminate.
Defined.

(** ** Creating a game *)

(** C3, as the code has it.  [create_game] answers with the
    ValidationError, the connection untouched, exactly on a name that is
    absent or empty or a players value that is falsy: absent, null, false, 0
    or the empty string.  Every other input passes the check, whatever the
    sign of players and whether or not it reads as a number: BEGIN and the
    game insert, with [parseInt(players)], are sent and the answer is no
    ValidationError.  A positive integer is such an input, and up to
    2^53 - 1, the largest integer a double holds with all its neighbours,
    [parseInt] gives it back unchanged. *)
Theorem create_game_validation (fault : nat -> bool) (d : db) (game : option string)
  (players : JS.value) (gamers : option string) :
  (JS.truthy_string game = false \/ JS.truthy players = false ->
   create_game fault d game players gamers
   = (d, Reply 400 (Error "Game name and players are required"))) /\
  (JS.truthy_string game = true -> JS.truthy players = true ->
   failure_of (snd (create_game fault d game players gamers)) <> Some ValidationError /\
   exists name rest,
     game = Some name /\
     log (fst (create_game fault d game players gamers))
     = (log d ++ Run BEGIN_TRANSACTION
              :: Run (INSERT_INTO_games name (JS.parseInt players)) :: rest)%list) /\
  (forall n, 0 < n < 2 ^ 53 -> players = JS.Num n ->
             JS.truthy players = true /\ JS.parseInt players = Some n).
Proof.
  split; [|split].
  - unfold create_game. destruct game as [g|]; [|reflexivity].
    cbn [JS.truthy_string]. fold (JS.nonEmpty g).
    intros [E|E]; rewrite E; [reflexivity | now rewrite orb_true_r].
  - destruct game as [g|]; [|discriminate]. cbn [JS.truthy_string]. fold (JS.nonEmpty g).
    intros G P. apply JSFacts.nonEmpty_true in G.
    rewrite (create_game_eq fault d g players gamers G P). cbv zeta.
    destruct (db_run fault (fst (db_run fault d BEGIN_TRANSACTION))
                (INSERT_INTO_games g (JS.parseInt players))) as [d2 r] eqn:E2.
    assert (L2 : log d2 = (log d ++ [Run BEGIN_TRANSACTION;
                                     Run (INSERT_INTO_games g (JS.parseInt players))])%list).
    { apply (f_equal fst) in E2. cbn [fst] in E2. rewrite <- E2.
      rewrite !db_run_log, <- app_assoc. reflexivity. }
    destruct r as [|id c].
    + cbn [fst snd]. split; [discriminate|].
      exists g, [Run ROLLBACK]. split; [reflexivity|].
      rewrite db_run_log, L2, <- app_assoc. reflexivity.
    + pose proof (insert_gamers_spec fault id (owner_names gamers) d2) as S.
      destruct (insert_gamers fault d2 id (owner_names gamers)) as [d3 e].
      cbv zeta in S. cbn [fst snd] in S. destruct S as (_ & L3 & _).
      destruct (0 <? e)%nat; cbn [fst snd]; (split; [discriminate|]);
        exists g; eexists; (split; [reflexivity|]);
        rewrite db_run_log, L3, L2, <- !app_assoc; reflexivity.
  - intros n Hn ->. split.
    + cbn [JS.truthy]. destruct (Z.eqb_spec n 0); [lia | reflexivity].
    + apply JSFacts.parseInt_safe. lia.
Qed.

Lemma create_game_validation_witness :
  create_game no_fault new_db (Some "") (JS.Num 2) None
  = (new_db, Reply 400 (Error "Game name and players are required")) /\
  failure_of (snd (create_game no_fault new_db (Some "Chess") (JS.Num 2) None))
  <> Some ValidationError /\
  JS.parseInt (JS.Num 2) = Some 2.
Proof.
  split; [|split].
  - apply (proj1 (create_game_validation no_fault new_db (Some "") (JS.Num 2) None)).
    left. reflexivity.
  - apply (proj1 (proj2 (create_game_validation no_fault new_db (Some "Chess") (JS.Num 2) None)));
      reflexivity.
  - apply (proj2 (proj2 (create_game_validation no_fault new_db (Some "Chess") (JS.Num 2) None))
             2); [split; [lia | reflexivity] | reflexivity].
Defined.

(** C3 as the specification words it fails: players = -3 is no positive
    integer, yet the game is created with it instead of being refused. *)
Lemma create_game_negative_players :
  let r := create_game no_fault new_db (Some "Catan") (JS.Num (-3)) None in
  ~ 0 < -3 /\
  snd r = Reply 200 (Success (Some 1)) /\
  failure_of (snd r) <> Some ValidationError /\
  log (fst r) = [Run BEGIN_TRANSACTION; Run (INSERT_INTO_games "Catan" (Some (-3))); Run COMMIT] /\
  games (cur (fst r)) = [{| g_id := 1; g_game := "Catan"; g_players := -3 |}].
Proof.
  cbv zeta. split; [lia|]. split; [reflexivity|]. split; [discriminate|].
  split; reflexivity.
Qed.

Lemma next_rowid_fresh (seq : Z) (ids : list Z) (x : Z) :
  In x ids -> x < next_rowid seq ids.
Proof.
  unfold next_rowid. induction ids as [|h t IH]; simpl; [contradiction|].
  intros [->|H]; [lia|]. specialize (IH H). lia.
Qed.

Lemma or_empty_group_concat (l : list string) : or_empty (group_concat l) = JS.join l.
Proof. destruct l; reflexivity. Qed.

Lemma filter_none {A : Type} (f : A -> bool) (l : list A) :
  (forall x, In x l -> f x = false) -> filter f l = [].
Proof.
  induction l as [|h t IH]; intros H; simpl; [reflexivity|].
  rewrite (H h) by now left. apply IH. intros x Hx. apply H. now right.
Qed.

Lemma filter_all {A : Type} (f : A -> bool) (l : list A) :
  (forall x, In x l -> f x = true) -> filter f l = l.
Proof.
  induction l as [|h t IH]; intros H; simpl; [reflexivity|].
  rewrite (H h) by now left. f_equal. apply IH. intros x Hx. apply H. now right.
Qed.

Lemma list_all_eq (fault : nat -> bool) (d : db) :
  fault (List.length (log d)) = false ->
  list_all fault d
  = (failed d (All SELECT_games_with_gamers),
     Reply 200 (Items (map game_item (select_games_with_gamers (cur d))))).
Proof.
  intros F. unfold list_all, getGamesWithGamers, db_all, faulty. now rewrite F.
Qed.

(** What [list_all] shows of a game whose id no other game has. *)
Lemma list_all_game (fault : nat -> bool) (d : db) (g : game_row) :
  fault (List.length (log d)) = false ->
  In g (games (cur d)) ->
  (forall g', In g' (games (cur d)) -> g_id g' = g_id g -> g' = g) ->
  let shown := {| i_rowid := g_id g; i_game := g_game g; i_players := g_players g;
                  i_gamer_list := JS.join (gamers_of (cur d) g);
                  i_owners_in_group := None |} in
  exists items,
    snd (list_all fault d) = Reply 200 (Items items) /\
    In shown items /\
    forall it, In it items -> i_rowid it = g_id g -> it = shown.
Proof.
  intros F Hg U shown. rewrite (list_all_eq fault d F). cbn [snd].
  eexists. split; [reflexivity|]. split.
  - apply in_map_iff. exists (games_with_gamers_row (cur d) g). split.
    + unfold game_item, shown. cbn. now rewrite or_empty_group_concat.
    + apply In_order_by_game. now apply in_map.
  - intros it Hit E. apply in_map_iff in Hit. destruct Hit as (x & <- & Hx).
    apply In_order_by_game, in_map_iff in Hx. destruct Hx as (g' & <- & Hg').
    cbn in E. rewrite (U g' Hg' E).
    unfold game_item, shown. cbn. now rewrite or_empty_group_concat.
Qed.

(** The atomicity of [create_game], and what [list_all] shows of the new
    game on a store without edges of games to come.  From an idle
    connection (every connection the server reaches is idle,
    [reachable_invariant]), on an input that passes
    the check and whose game insert succeeds: if every owner insert
    succeeds, the statements sent are BEGIN, the game insert, one insert
    per name and then a single COMMIT, the answer carries the new id, the
    game row and one edge per name are added, and a following [list_all]
    shows, for the new game, exactly these names, provided no edge
    referred to the new id beforehand; if some owner insert fails, the
    last statement is ROLLBACK, the answer is the StoreError, and the
    tables are as before the call, without the game row. *)
Theorem create_game_atomic (fault : nat -> bool) (d : db) (game : string)
  (players : JS.value) (p : Z) (gamers : option string) :
  txn d = None ->
  game <> "" -> JS.truthy players = true -> JS.parseInt players = Some p ->
  fault (S (List.length (log d))) = false ->
  let names := owner_names gamers in
  let id := next_rowid (seq_games (cur d)) (map g_id (games (cur d))) in
  let d' := fst (create_game fault d (Some game) players gamers) in
  let resp := snd (create_game fault d (Some game) players gamers) in
  let sent :=
    Run BEGIN_TRANSACTION :: Run (INSERT_INTO_games game (Some p))
    :: map (fun n => Run (INSERT_INTO_game_gamers id n)) names in
  (sound fault (S (S (List.length (log d)))) (List.length names) ->
   resp = Reply 200 (Success (Some id)) /\
   log d' = (log d ++ sent ++ [Run COMMIT])%list /\
   txn d' = None /\
   games (cur d') = (games (cur d) ++ [{| g_id := id; g_game := game; g_players := p |}])%list /\
   (exists rows,
       game_gamers (cur d') = (game_gamers (cur d) ++ rows)%list /\
       Forall (fun r => gg_game_id r = id) rows /\
       map gg_gamer_name rows = names) /\
   ((forall n, ~ owns (cur d) id n) ->
    fault (List.length (log d')) = false ->
    let shown := {| i_rowid := id; i_game := game; i_players := p;
                    i_gamer_list := JS.join names; i_owners_in_group := None |} in
    exists items,
      snd (list_all fault d') = Reply 200 (Items items) /\
      In shown items /\
      forall it, In it items -> i_rowid it = id -> it = shown)) /\
  (~ sound fault (S (S (List.length (log d)))) (List.length names) ->
   resp = Reply 500 (Error "Failed to add some gamers") /\
   log d' = (log d ++ sent ++ [Run ROLLBACK])%list /\
   txn d' = None /\
   cur d' = cur d /\
   ~ game_exists (cur d') id).
Proof.
  intros I G P N F names id d' resp sent.
  pose proof (create_game_outcome fault d game players gamers I G P) as O.
  cbv zeta in O. rewrite F, N in O. destruct O as [T O].
  fold names id d' resp in O, T.
  assert (Fresh : ~ game_exists (cur d) id).
  { intros (g & Hg & E).
    pose proof (next_rowid_fresh (seq_games (cur d)) (map g_id (games (cur d))) (g_id g)
                  (in_map g_id _ _ Hg)). fold id in H. lia. }
  split.
  - intros S. destruct O as [(_ & R & Lg & Gm & rows & R1 & R2 & R3) | (NS & _)];
      [|contradiction].
    split; [exact R|]. split; [exact Lg|]. split; [exact T|]. split; [exact Gm|].
    split; [now exists rows|].
    intros NoEdge F'. cbv zeta.
    set (g := {| g_id := id; g_game := game; g_players := p |}) in *.
    assert (Hg : In g (games (cur d'))) by (rewrite Gm; apply in_or_app; right; now left).
    assert (U : forall g', In g' (games (cur d')) -> g_id g' = g_id g -> g' = g).
    { intros g' Hg' E. rewrite Gm in Hg'. apply in_app_or in Hg'.
      destruct Hg' as [Hg'|[<-|[]]]; [|reflexivity].
      exfalso. apply Fresh. now exists g'. }
    pose proof (list_all_game fault d' g F' Hg U) as LA. cbv zeta in LA.
    replace (gamers_of (cur d') g) with names in LA; [exact LA|].
    unfold gamers_of. rewrite R1, filter_app, map_app.
    rewrite (filter_none (of_game (g_id g)) (game_gamers (cur d))).
    + rewrite filter_all; [now rewrite R3|].
      intros r Hr. rewrite Forall_forall in R2. apply Z.eqb_eq. now apply R2.
    + intros r Hr. apply Z.eqb_neq. intros E.
      apply (NoEdge (gg_gamer_name r)). now exists r.
  - intros NS. destruct O as [(S & _) | (_ & R & Lg & C)]; [contradiction|].
    split; [exact R|]. split; [exact Lg|]. split; [exact T|]. split; [exact C|].
    now rewrite C.
Qed.

Lemma create_game_atomic_witness :
  let fail_third := fun n => Nat.eqb n 3 in
  let gamers := Some "Alice, Bob" in
  (snd (create_game no_fault new_db (Some "Catan") (JS.Num 3) gamers)
   = Reply 200 (Success (Some 1)) /\
   snd (list_all no_fault (fst (create_game no_fault new_db (Some "Catan") (JS.Num 3) gamers)))
   = Reply 200 (Items [{| i_rowid := 1; i_game := "Catan"; i_players := 3;
                          i_gamer_list := "Alice,Bob"; i_owners_in_group := None |}])) /\
  (snd (create_game fail_third new_db (Some "Catan") (JS.Num 3) gamers)
   = Reply 500 (Error "Failed to add some gamers") /\
   cur (fst (create_game fail_third new_db (Some "Catan") (JS.Num 3) gamers)) = cur new_db).
Proof.
  intros fail_third gamers. split.
  - assert (E : "Catan" <> "") by discriminate.
    destruct (create_game_atomic no_fault new_db "Catan" (JS.Num 3) 3 gamers
                eq_refl E eq_refl eq_refl eq_refl) as [H _].
    destruct H as (R & _ & _ & _ & _ & LA).
    + intros i _. reflexivity.
    + split; [exact R|]. reflexivity.
  - assert (E : "Catan" <> "") by discriminate.
    destruct (create_game_atomic fail_third new_db "Catan" (JS.Num 3) 3 gamers
                eq_refl E eq_refl eq_refl eq_refl) as [_ H].
    destruct H as (R & _ & _ & C & _).
    + intros S. specialize (S 3%nat). cbv in S.
      assert (true = false) by (apply S; split; repeat constructor). discriminate.
    + split; [exact R | exact C].
Defined.

(** C2 at a failing input.  The foreign key of [game_gamers.game_id] is
    declared but never enforced, and [add_owner] does not look the game up:
    on a fresh database it attaches Zed to the id 1, which no game has.
    The game created next receives that id, every insert succeeding, and
    [list_all] shows it with the owners Zed and Alice, not with exactly
    the owner it was created with. *)
Lemma create_game_foreign_edge :
  let d0 := fst (add_owner no_fault new_db 1 (Some "Zed")) in
  let created := create_game no_fault d0 (Some "Catan") (JS.Num 3) (Some "Alice") in
  reachable no_fault d0 /\
  snd created = Reply 200 (Success (Some 1)) /\
  owner_names (Some "Alice") = ["Alice"] /\
  snd (list_all no_fault (fst created))
  = Reply 200 (Items [{| i_rowid := 1; i_game := "Catan"; i_players := 3;
                         i_gamer_list := "Zed,Alice"; i_owners_in_group := None |}]) /\
  "Zed,Alice" <> JS.join (owner_names (Some "Alice")).
Proof.
  cbv zeta. split.
  - exact (reachable_handle new_db (POST_game_gamers 1 (Some "Zed")) reachable_new).
  - split; [reflexivity|]. split; [reflexivity|]. split; [reflexivity|]. discriminate.
Qed.

(** C7 at a failing input.  The names of [gamers] are not deduplicated:
    on a fresh database, creating a game with owners "Bob,Bob" inserts the
    edge (1, Bob) twice, which breaks the uniqueness of owners within a game
    that held before. *)
Theorem create_game_duplicate_names :
  let r := create_game no_fault new_db (Some "Catan") (JS.Num 3) (Some "Bob,Bob") in
  unique_owners (cur new_db) /\
  snd r = Reply 200 (Success (Some 1)) /\
  game_gamers (cur (fst r))
  = [{| gg_id := 1; gg_game_id := 1; gg_gamer_name := "Bob" |};
     {| gg_id := 2; gg_game_id := 1; gg_gamer_name := "Bob" |}] /\
  count_edges (cur (fst r)) 1 "Bob" = 2%nat /\
  ~ unique_owners (cur (fst r)).
Proof.
  cbv zeta. split; [intros g n; cbn; lia|].
  split; [reflexivity|]. split; [reflexivity|]. split; [reflexivity|].
  intros U. specialize (U 1 "Bob"). vm_compute in U. lia.
Qed.

(** ** Owners *)

Lemma is_edge_true (id : Z) (name : string) (r : gamer_row) :
  is_edge id name r = true <-> gg_game_id r = id /\ gg_gamer_name r = name.
Proof.
  unfold is_edge. now rewrite andb_true_iff, Z.eqb_eq, String.eqb_eq.
Qed.

Lemma count_edges_owns (t : tables) (id : Z) (name : string) :
  count_edges t id name <> 0%nat <-> owns t id name.
Proof.
  unfold count_edges, owns. split.
  - destruct (filter (is_edge id name) (game_gamers t)) as [|r l] eqn:F; [easy|].
    intros _. assert (H : In r (filter (is_edge id name) (game_gamers t)))
      by (rewrite F; now left).
    apply filter_In in H. destruct H as [H1 H2]. apply is_edge_true in H2.
    exists r. tauto.
  - intros (r & H1 & H2 & H3).
    assert (H : In r (filter (is_edge id name) (game_gamers t))).
    { apply filter_In. split; [exact H1 | now apply is_edge_true]. }
    destruct (filter (is_edge id name) (game_gamers t)); [contradiction | discriminate].
Qed.

Lemma find_edge_owns (t : tables) (id : Z) (name : string) :
  find (is_edge id name) (game_gamers t) <> None <-> owns t id name.
Proof.
  unfold owns. split.
  - destruct (find (is_edge id name) (game_gamers t)) as [r|] eqn:F; [|easy].
    intros _. apply find_some in F. destruct F as [H1 H2]. apply is_edge_true in H2.
    exists r. tauto.
  - intros (r & H1 & H2 & H3) F.
    apply (find_none _ _ F) in H1.
    assert (is_edge id name r = true) by now apply is_edge_true. congruence.
Qed.

Lemma count_edges_insert (t : tables) (id : Z) (name : string) :
  count_edges (fst (insert_gamer t id name)) id name = S (count_edges t id name).
Proof.
  unfold count_edges. cbn [insert_gamer fst game_gamers].
  rewrite filter_app, length_app. cbn [filter].
  replace (is_edge id name _) with true.
  - cbn [List.length]. lia.
  - symmetry. now apply is_edge_true.
Qed.

Lemma owns_insert (t : tables) (id : Z) (name : string) :
  owns (fst (insert_gamer t id name)) id name.
Proof.
  eexists. cbn [insert_gamer fst game_gamers]. split.
  - apply in_or_app. right. left. reflexivity.
  - now split.
Qed.

Lemma delete_gamers_none (t : tables) (p : gamer_row -> bool) :
  filter p (game_gamers t) = [] -> fst (delete_gamers t p) = t.
Proof.
  intros E. destruct t as [gs es s1 s2]. cbn in *. f_equal.
  apply filter_all. intros r Hr. destruct (p r) eqn:P; [|reflexivity].
  assert (H : In r (filter p es)) by (apply filter_In; now split).
  rewrite E in H. contradiction.
Qed.

Lemma no_game_count (t : tables) (id : Z) :
  (List.length (filter (has_id id) (games t)) =? 0)%nat = true <-> ~ game_exists t id.
Proof.
  rewrite Nat.eqb_eq, length_zero_iff_nil. unfold game_exists, has_id. split.
  - intros E (g & Hg & I).
    assert (H : In g (filter (fun g => g_id g =? id) (games t))).
    { apply filter_In. split; [exact Hg | now apply Z.eqb_eq]. }
    rewrite E in H. contradiction.
  - intros H. apply filter_none. intros g Hg. apply Z.eqb_neq. intros E.
    apply H. now exists g.
Qed.


(** ** Deleting a game *)

(** Deleting a game that does not exist: the edge deletion is rolled back
    with the rest. *)
Lemma delete_game_missing (fault : nat -> bool) (d : db) (id : Z) :
  txn d = None ->
  sound fault (S (List.length (log d))) 2 ->
  ~ game_exists (cur d) id ->
  delete_game fault d id
  = ({| cur := cur d; txn := None;
        log := (log d ++ [Run BEGIN_TRANSACTION;
                          Run (DELETE_FROM_game_gamers_WHERE_game_id id);
                          Run (DELETE_FROM_games_WHERE_id id);
                          Run ROLLBACK])%list |},
     Reply 404 (Error "Game not found")).
Proof.
  intros I Snd M. rewrite (delete_game_eq fault d id I). cbv zeta.
  rewrite (Snd (S (List.length (log d)))) by lia.
  rewrite (Snd (S (S (List.length (log d))))) by lia.
  apply no_game_count in M. now rewrite M.
Qed.

(** C4.  From an idle connection, the two deletions succeeding,
    [delete_game] sends BEGIN, the deletion of the edges of the id, the
    deletion of the game row and then ROLLBACK or COMMIT.  If no game has
    the id, it rolls back, the tables are as before (edges of that id
    included) and the answer is NotFound.  Otherwise it commits: the edges
    left are those of the other games, the games left are the others, and a
    second [delete_game] of the id answers NotFound. *)
Theorem delete_game_cascade (fault : nat -> bool) (d : db) (id : Z) :
  txn d = None ->
  sound fault (S (List.length (log d))) 2 ->
  let d' := fst (delete_game fault d id) in
  let resp := snd (delete_game fault d id) in
  let sent := [Run BEGIN_TRANSACTION;
               Run (DELETE_FROM_game_gamers_WHERE_game_id id);
               Run (DELETE_FROM_games_WHERE_id id)] in
  (~ game_exists (cur d) id ->
   resp = Reply 404 (Error "Game not found") /\
   failure_of resp = Some NotFound /\
   log d' = (log d ++ sent ++ [Run ROLLBACK])%list /\
   txn d' = None /\
   cur d' = cur d) /\
  (game_exists (cur d) id ->
   resp = Reply 200 (Success None) /\
   log d' = (log d ++ sent ++ [Run COMMIT])%list /\
   txn d' = None /\
   (forall r, In r (game_gamers (cur d'))
              <-> In r (game_gamers (cur d)) /\ gg_game_id r <> id) /\
   (forall g, In g (games (cur d')) <-> In g (games (cur d)) /\ g_id g <> id) /\
   (sound fault (S (List.length (log d'))) 2 ->
    snd (delete_game fault d' id) = Reply 404 (Error "Game not found") /\
    cur (fst (delete_game fault d' id)) = cur d')).
Proof.
  intros I Snd d' resp sent. split.
  - intros M. subst d' resp. rewrite (delete_game_missing fault d id I Snd M).
    cbn [fst snd log txn cur]. repeat split.
  - intros E.
    assert (X : delete_game fault d id
                = ({| cur := {| games := filter (fun g => negb (has_id id g)) (games (cur d));
                                game_gamers :=
                                  filter (fun r => negb (of_game id r)) (game_gamers (cur d));
                                seq_games := seq_games (cur d);
                                seq_game_gamers := seq_game_gamers (cur d) |};
                      txn := None;
                      log := (log d ++ sent ++ [Run COMMIT])%list |},
                   Reply 200 (Success None))).
    { rewrite (delete_game_eq fault d id I). cbv zeta.
      rewrite (Snd (S (List.length (log d)))) by lia.
      rewrite (Snd (S (S (List.length (log d))))) by lia.
      destruct (List.length (filter (has_id id) (games (cur d))) =? 0)%nat eqn:C;
        [|reflexivity].
      apply no_game_count in C. contradiction. }
    assert (Gone : ~ game_exists (cur d') id).
    { subst d'. rewrite X. cbn [fst cur games]. intros (g & Hg & Eg).
      apply filter_In in Hg. destruct Hg as [_ Hg]. unfold has_id in Hg.
      apply negb_true_iff, Z.eqb_neq in Hg. contradiction. }
    subst resp. unfold d' in *. clear d'. rewrite X in *. cbn [fst snd log txn cur] in *.
    split; [reflexivity|]. split; [reflexivity|]. split; [reflexivity|].
    split; [|split].
    + intros r. cbn [game_gamers]. rewrite filter_In. unfold of_game.
      rewrite negb_true_iff, Z.eqb_neq. reflexivity.
    + intros g. cbn [games]. rewrite filter_In. unfold has_id.
      rewrite negb_true_iff, Z.eqb_neq. reflexivity.
    + intros Snd'.
      match goal with
      | |- context [delete_game fault ?x id] =>
          rewrite (delete_game_missing fault x id eq_refl Snd' Gone)
      end.
      now split.
Qed.

Lemma delete_game_cascade_witness :
  let d := fst (create_game no_fault new_db (Some "Catan") (JS.Num 3) (Some "Alice,Bob")) in
  snd (delete_game no_fault d 7) = Reply 404 (Error "Game not found") /\
  cur (fst (delete_game no_fault d 7)) = cur d /\
  snd (delete_game no_fault d 1) = Reply 200 (Success None) /\
  (forall r, In r (game_gamers (cur (fst (delete_game no_fault d 1)))) -> gg_game_id r <> 1) /\
  snd (delete_game no_fault (fst (delete_game no_fault d 1)) 1)
  = Reply 404 (Error "Game not found").
Proof.
  intros d.
  assert (I : txn d = None) by reflexivity.
  assert (Snd : sound no_fault (S (List.length (log d))) 2) by (intros i _; reflexivity).
  destruct (delete_game_cascade no_fault d 7 I Snd) as [M _].
  destruct (delete_game_cascade no_fault d 1 I Snd) as [_ E].
  destruct M as (R & _ & _ & _ & C).
  { intros (g & Hg & Eg). vm_compute in Hg. destruct Hg as [<-|[]]. discriminate. }
  destruct E as (R' & _ & _ & Ed & _ & Again).
  { exists {| g_id := 1; g_game := "Catan"; g_players := 3 |}. split; [now left | reflexivity]. }
  split; [exact R|]. split; [exact C|]. split; [exact R'|]. split.
  - intros r Hr. now apply Ed in Hr.
  - apply Again. intros i _. reflexivity.
Defined.

(** ** Adding and removing an owner *)

(** [add_owner] when the pair is there already. *)
Lemma add_owner_present (fault : nat -> bool) (d : db) (id : Z) (n : string) :
  JS.trim n <> "" ->
  fault (List.length (log d)) = false ->
  owns (cur d) id (JS.trim n) ->
  add_owner fault d id (Some n)
  = ({| cur := cur d; txn := txn d;
        log := (log d ++ [Get_id_FROM_game_gamers id (JS.trim n)])%list |},
     Reply 400 (Error "Gamer already exists for this game")).
Proof.
  intros T F O. rewrite (add_owner_eq fault d id n T). cbv zeta. rewrite F.
  apply find_edge_owns in O.
  destruct (find (is_edge id (JS.trim n)) (game_gamers (cur d))); [reflexivity|congruence].
Qed.

(** [add_owner] when the pair is not there. *)
Lemma add_owner_absent (fault : nat -> bool) (d : db) (id : Z) (n : string) :
  JS.trim n <> "" ->
  sound fault (List.length (log d)) 2 ->
  ~ owns (cur d) id (JS.trim n) ->
  add_owner fault d id (Some n)
  = ({| cur := fst (insert_gamer (cur d) id (JS.trim n));
        txn := txn d;
        log := (log d ++ [Get_id_FROM_game_gamers id (JS.trim n);
                          Run (INSERT_INTO_game_gamers id (JS.trim n))])%list |},
     Reply 200 (Success (Some (snd (insert_gamer (cur d) id (JS.trim n)))))).
Proof.
  intros T Snd O. rewrite (add_owner_eq fault d id n T). cbv zeta.
  rewrite (Snd (List.length (log d))) by lia.
  rewrite (Snd (S (List.length (log d)))) by lia.
  destruct (find (is_edge id (JS.trim n)) (game_gamers (cur d))) eqn:F; [|reflexivity].
  exfalso. apply O. apply find_edge_owns. congruence.
Qed.

(** What [add_owner] does about a pair that is there: it looks the
    pair (game id, trimmed name) up by
    equality of the id and of the string, letter case included.  When the
    store answers, it reports the conflict exactly when the pair is there,
    and then changes no table.  Called twice with the same arguments, the
    second call reports the conflict and changes nothing; and when the first
    call added the edge, the pair has exactly one row afterwards. *)
Theorem add_owner_conflict (fault : nat -> bool) (d : db) (id : Z) (n : string) :
  JS.trim n <> "" ->
  sound fault (List.length (log d)) 3 ->
  let name := JS.trim n in
  let first := add_owner fault d id (Some n) in
  let second := add_owner fault (fst first) id (Some n) in
  (owns (cur d) id name
   <-> snd first = Reply 400 (Error "Gamer already exists for this game")) /\
  (owns (cur d) id name ->
   failure_of (snd first) = Some ConflictError /\ cur (fst first) = cur d) /\
  snd second = Reply 400 (Error "Gamer already exists for this game") /\
  failure_of (snd second) = Some ConflictError /\
  cur (fst second) = cur (fst first) /\
  (~ owns (cur d) id name ->
   (exists edge, snd first = Reply 200 (Success (Some edge))) /\
   count_edges (cur (fst second)) id name = 1%nat).
Proof.
  intros T Snd name first second.
  assert (F0 : fault (List.length (log d)) = false) by (apply Snd; lia).
  assert (S2 : sound fault (List.length (log d)) 2) by (intros i Hi; apply Snd; lia).
  assert (Dec : owns (cur d) id name \/ ~ owns (cur d) id name).
  { destruct (find (is_edge id name) (game_gamers (cur d))) eqn:F.
    - left. apply find_edge_owns. congruence.
    - right. intros O. apply find_edge_owns in O. congruence. }
  destruct Dec as [O|O].
  - pose proof (add_owner_present fault d id n T F0 O) as E1.
    assert (E2 : second = ({| cur := cur d; txn := txn d;
                              log := ((log d ++ [Get_id_FROM_game_gamers id name])
                                      ++ [Get_id_FROM_game_gamers id name])%list |},
                           Reply 400 (Error "Gamer already exists for this game"))).
    { subst second first. rewrite E1. cbn [fst].
      rewrite (add_owner_present fault _ id n T); [reflexivity | | exact O].
      cbn [log]. rewrite length_app. apply Snd. cbn [List.length]. lia. }
    subst first. rewrite E2, E1. cbn [fst snd cur failure_of].
    repeat split; try reflexivity; try tauto.
  - pose proof (add_owner_absent fault d id n T S2 O) as E1.
    assert (O1 : owns (cur (fst first)) id name).
    { subst first. rewrite E1. cbn [fst cur]. apply owns_insert. }
    assert (E2 : second = ({| cur := cur (fst first); txn := txn (fst first);
                              log := (log (fst first)
                                      ++ [Get_id_FROM_game_gamers id name])%list |},
                           Reply 400 (Error "Gamer already exists for this game"))).
    { subst second. apply (add_owner_present fault _ id n T); [|exact O1].
      subst first. rewrite E1. cbn [fst log]. rewrite length_app. apply Snd.
      cbn [List.length]. lia. }
    rewrite E2. cbn [fst snd cur failure_of]. subst first. rewrite E1 in *.
    cbn [fst snd cur] in *.
    split; [split; [tauto | intros H; discriminate H]|]. split; [tauto|].
    split; [reflexivity|]. split; [reflexivity|]. split; [reflexivity|].
    intros _. split; [now eexists|].
    rewrite count_edges_insert.
    assert (C : count_edges (cur d) id name = 0%nat).
    { destruct (Nat.eq_dec (count_edges (cur d) id name) 0) as [C|C]; [exact C|].
      apply count_edges_owns in C. contradiction. }
    now rewrite C.
Qed.

Lemma add_owner_conflict_witness :
  let first := add_owner no_fault new_db 1 (Some " Bob ") in
  let second := add_owner no_fault (fst first) 1 (Some " Bob ") in
  snd first = Reply 200 (Success (Some 1)) /\
  failure_of (snd second) = Some ConflictError /\
  count_edges (cur (fst second)) 1 "Bob" = 1%nat.
Proof.
  intros first second.
  assert (T : JS.trim " Bob " <> "") by (vm_compute; discriminate).
  assert (Snd : sound no_fault (List.length (log new_db)) 3) by (intros i _; reflexivity).
  destruct (add_owner_conflict no_fault new_db 1 " Bob " T Snd)
    as (_ & _ & _ & C & _ & N).
  split; [reflexivity|]. split; [exact C|].
  apply N. intros (r & [] & _).
Defined.

(** C5 at a failing input.  [create_game] does not deduplicate the names
    of [gamers] (the defect of C7): after the creation of a game with
    owners "Bob,Bob" on a fresh database, [add_owner] for Bob answers the
    conflict both the first and the second time and adds nothing, but the
    pair has two edge rows, not exactly one. *)
Theorem add_owner_after_duplicates :
  let d := fst (create_game no_fault new_db (Some "Catan") (JS.Num 3) (Some "Bob,Bob")) in
  let first := add_owner no_fault d 1 (Some "Bob") in
  let second := add_owner no_fault (fst first) 1 (Some "Bob") in
  snd first = Reply 400 (Error "Gamer already exists for this game") /\
  snd second = Reply 400 (Error "Gamer already exists for this game") /\
  failure_of (snd second) = Some ConflictError /\
  game_gamers (cur (fst second))
  = [{| gg_id := 1; gg_game_id := 1; gg_gamer_name := "Bob" |};
     {| gg_id := 2; gg_game_id := 1; gg_gamer_name := "Bob" |}] /\
  count_edges (cur (fst second)) 1 "Bob" = 2%nat.
Proof. cbv zeta. repeat split. Qed.

(** The match is on the exact string: "bob" does not own what "Bob" owns. *)
Example add_owner_case_sensitive :
  let d := fst (add_owner no_fault new_db 1 (Some "Bob")) in
  snd (add_owner no_fault d 1 (Some "bob")) = Reply 200 (Success (Some 2)) /\
  snd (add_owner no_fault d 1 (Some "Bob"))
  = Reply 400 (Error "Gamer already exists for this game").
Proof. split; reflexivity. Qed.

(** C8.  On a non-empty name, the deletion succeeding at the store,
    [remove_owner] deletes the rows of the pair (game id, name as given)
    and no other row; it answers success when the pair had a row and
    NotFound when it had none; and a second call with the same arguments
    answers NotFound.  (The name of a stored edge is never empty,
    [reachable_owner_trimmed].) *)
Theorem remove_owner_twice (fault : nat -> bool) (d : db) (id : Z) (n : string) :
  n <> "" ->
  sound fault (List.length (log d)) 2 ->
  let first := remove_owner fault d id (Some n) in
  let second := remove_owner fault (fst first) id (Some n) in
  (forall r, In r (game_gamers (cur (fst first)))
             <-> In r (game_gamers (cur d)) /\ ~ (gg_game_id r = id /\ gg_gamer_name r = n)) /\
  games (cur (fst first)) = games (cur d) /\
  (owns (cur d) id n -> snd first = Reply 200 (Success None)) /\
  (~ owns (cur d) id n ->
   snd first = Reply 404 (Error "Gamer not found for this game") /\
   cur (fst first) = cur d) /\
  snd second = Reply 404 (Error "Gamer not found for this game") /\
  failure_of (snd second) = Some NotFound /\
  cur (fst second) = cur (fst first).
Proof.
  intros N Snd first second.
  assert (E1 : first = ({| cur := fst (delete_gamers (cur d) (is_edge id n));
                           txn := txn d;
                           log := (log d ++ [Run (DELETE_FROM_game_gamers_WHERE_game_id_AND_gamer_name id n)])%list |},
                        if (count_edges (cur d) id n =? 0)%nat
                        then Reply 404 (Error "Gamer not found for this game")
                        else Reply 200 (Success None))).
  { subst first. rewrite (remove_owner_eq fault d id n N). cbv zeta.
    now rewrite (Snd (List.length (log d))) by lia. }
  assert (Kept : forall r, In r (game_gamers (cur (fst first)))
                           <-> In r (game_gamers (cur d))
                               /\ ~ (gg_game_id r = id /\ gg_gamer_name r = n)).
  { intros r. rewrite E1. cbn [fst cur delete_gamers game_gamers].
    rewrite filter_In, negb_true_iff, <- not_true_iff_false, is_edge_true. reflexivity. }
  assert (Gone : ~ owns (cur (fst first)) id n).
  { intros (r & H1 & H2 & H3). apply Kept in H1. tauto. }
  assert (C1 : count_edges (cur (fst first)) id n = 0%nat).
  { destruct (Nat.eq_dec (count_edges (cur (fst first)) id n) 0) as [C|C]; [exact C|].
    apply count_edges_owns in C. contradiction. }
  assert (E2 : second = ({| cur := cur (fst first);
                            txn := txn (fst first);
                            log := (log (fst first) ++ [Run (DELETE_FROM_game_gamers_WHERE_game_id_AND_gamer_name id n)])%list |},
                         Reply 404 (Error "Gamer not found for this game"))).
  { subst second. rewrite (remove_owner_eq fault (fst first) id n N). cbv zeta.
    replace (fault (List.length (log (fst first)))) with false.
    - rewrite C1. cbn [Nat.eqb]. f_equal. f_equal.
      apply delete_gamers_none. now apply length_zero_iff_nil.
    - symmetry. rewrite E1. cbn [fst log]. rewrite length_app. apply Snd.
      cbn [List.length]. lia. }
  split; [exact Kept|]. rewrite E2. cbn [fst snd cur].
  split; [now rewrite E1|]. split; [|split].
  - intros O. apply count_edges_owns in O. rewrite E1. cbn [snd].
    destruct (count_edges (cur d) id n); [congruence | reflexivity].
  - intros O. rewrite E1. cbn [fst snd cur].
    assert (C : count_edges (cur d) id n = 0%nat).
    { destruct (Nat.eq_dec (count_edges (cur d) id n) 0) as [C|C]; [exact C|].
      apply count_edges_owns in C. contradiction. }
    rewrite C. split; [reflexivity|].
    apply delete_gamers_none. now apply length_zero_iff_nil.
  - repeat split.
Qed.

Lemma remove_owner_twice_witness :
  let d := fst (create_game no_fault new_db (Some "Catan") (JS.Num 3) (Some "Alice,Bob")) in
  let first := remove_owner no_fault d 1 (Some "Bob") in
  let second := remove_owner no_fault (fst first) 1 (Some "Bob") in
  snd first = Reply 200 (Success None) /\
  snd second = Reply 404 (Error "Gamer not found for this game") /\
  failure_of (snd second) = Some NotFound.
Proof.
  intros d first second.
  assert (N : "Bob" <> "") by discriminate.
  assert (Snd : sound no_fault (List.length (log d)) 2) by (intros i _; reflexivity).
  destruct (remove_owner_twice no_fault d 1 "Bob" N Snd) as (_ & _ & O & _ & R2 & F2 & _).
  split; [|split; [exact R2 | exact F2]].
  apply O. exists {| gg_id := 2; gg_game_id := 1; gg_gamer_name := "Bob" |}.
  split; [right; left; reflexivity | split; reflexivity].
Defined.

(** C9.  [add_owner] never looks at the games table and no foreign key
    is in force: for an id that no game has, a name that is not blank and
    not yet paired with the id, and a store that answers, it succeeds with
    the id of a new edge row, and that row, appended to the ownership table,
    refers to a game that does not exist. *)
Theorem add_owner_missing_game (fault : nat -> bool) (d : db) (id : Z) (n : string) :
  ~ game_exists (cur d) id ->
  JS.trim n <> "" ->
  ~ owns (cur d) id (JS.trim n) ->
  sound fault (List.length (log d)) 2 ->
  let d' := fst (add_owner fault d id (Some n)) in
  let edge := next_rowid (seq_game_gamers (cur d)) (map gg_id (game_gamers (cur d))) in
  snd (add_owner fault d id (Some n)) = Reply 200 (Success (Some edge)) /\
  (forall r, In r (game_gamers (cur d)) -> gg_id r < edge) /\
  game_gamers (cur d')
  = (game_gamers (cur d)
     ++ [{| gg_id := edge; gg_game_id := id; gg_gamer_name := JS.trim n |}])%list /\
  games (cur d') = games (cur d) /\
  owns (cur d') id (JS.trim n) /\
  ~ game_exists (cur d') id.
Proof.
  intros M T O Snd d' edge. subst d'.
  rewrite (add_owner_absent fault d id n T Snd O). cbn [fst snd cur insert_gamer games game_gamers].
  split; [reflexivity|]. split.
  - intros r Hr. apply next_rowid_fresh. now apply in_map.
  - split; [reflexivity|]. split; [reflexivity|]. split; [|exact M].
    apply (owns_insert (cur d) id (JS.trim n)).
Qed.

Lemma add_owner_missing_game_witness :
  snd (add_owner no_fault new_db 42 (Some "Zed")) = Reply 200 (Success (Some 1)) /\
  game_gamers (cur (fst (add_owner no_fault new_db 42 (Some "Zed"))))
  = [{| gg_id := 1; gg_game_id := 42; gg_gamer_name := "Zed" |}] /\
  ~ game_exists (cur (fst (add_owner no_fault new_db 42 (Some "Zed")))) 42.
Proof.
  assert (M : ~ game_exists (cur new_db) 42) by (intros (g & [] & _)).
  assert (T : JS.trim "Zed" <> "") by (vm_compute; discriminate).
  assert (O : ~ owns (cur new_db) 42 (JS.trim "Zed")) by (intros (r & [] & _)).
  assert (Snd : sound no_fault (List.length (log new_db)) 2) by (intros i _; reflexivity).
  destruct (add_owner_missing_game no_fault new_db 42 "Zed" M T O Snd)
    as (R & _ & E & _ & _ & G).
  split; [exact R|]. split; [exact E | exact G].
Defined.

(** *** What [trim] removes *)



Lemma trimEnd_last (s : string) : last_is_space (JS.trimEnd s) = false.
Proof.
  induction s as [|c s IH]; [reflexivity|].
  cbn [JS.trimEnd]. destruct (JS.trimEnd s) as [|c' t] eqn:T.
  - destruct (JS.isWhiteSpace c) eqn:W; [reflexivity | cbn; exact W].
  - exact IH.
Qed.

(** The trimmed string has no white space at either end. *)
Lemma trim_no_outer_space (s : string) : outer_space (JS.trim s) = false.
Proof.
  unfold outer_space, JS.trim. rewrite trimEnd_last, orb_false_r.
  destruct (JSFacts.trimStart_cases s) as [E | (c & t & E & W)]; rewrite E; [reflexivity|].
  destruct (JSFacts.trimEnd_head c t W) as [t' E']. rewrite E'. exact W.
Qed.





(** ** The uniqueness of owners within a game *)

Lemma count_edges_insert_other (t : tables) (id id' : Z) (name name' : string) :
  ~ (id' = id /\ name' = name) ->
  count_edges (fst (insert_gamer t id name)) id' name' = count_edges t id' name'.
Proof.
  intros H. unfold count_edges. cbn [insert_gamer fst game_gamers].
  rewrite filter_app, length_app. cbn [filter].
  replace (is_edge id' name' _) with false; [cbn [List.length]; lia|].
  symmetry. apply not_true_iff_false. rewrite is_edge_true. cbn. intuition.
Qed.

Lemma count_edges_delete (t : tables) (p : gamer_row -> bool) (id : Z) (name : string) :
  (count_edges (fst (delete_gamers t p)) id name <= count_edges t id name)%nat.
Proof.
  unfold count_edges. cbn [delete_gamers fst game_gamers].
  induction (game_gamers t) as [|r l IH]; cbn [filter]; [lia|].
  destruct (p r); cbn [negb filter]; destruct (is_edge id name r); cbn [List.length]; lia.
Qed.

(** X14.  Every request but the creation of a game keeps each name at most once
    within a game; [add_owner] in particular never adds a second row for a
    pair. *)
Lemma handle_unique_owners (fault : nat -> bool) (d : db) (r : request) :
  txn d = None ->
  (forall game players gamers, r <> POST_games_all game players gamers) ->
  unique_owners (cur d) -> unique_owners (cur (fst (handle fault d r))).
Proof.
  intros I NC U. destruct r as [|p|game players gamers|id|id n|id n]; cbn [handle].
  - unfold list_all, getGamesWithGamers, db_all, faulty, failed, issue.
    now destruct (fault (List.length (log d))).
  - unfold list_playable, getPlayableGames, db_all, faulty, failed, issue.
    destruct p as [p|]; [|exact U].
    destruct (negb (JS.nonEmpty p)); [exact U|].
    destruct (List.length (JS.names_of p) =? 0)%nat; [exact U|].
    now destruct (fault (List.length (log d))).
  - now contradiction (NC game players gamers).
  - rewrite (delete_game_eq fault d id I). cbv zeta.
    repeat match goal with
           | |- context [if ?b then _ else _] => destruct b
           end; cbn [fst cur]; try exact U.
    intros g n.
    pose proof (count_edges_delete (cur d) (of_game id) g n) as H.
    unfold count_edges in *. cbn [delete_gamers fst game_gamers] in *.
    specialize (U g n). unfold count_edges in U. lia.
  - destruct n as [n|]; [|exact U].
    destruct (String.eqb_spec (JS.trim n) "") as [E|E].
    + unfold add_owner. rewrite E. change (JS.nonEmpty "") with false.
      cbn [negb]. rewrite orb_true_r. exact U.
    + rewrite (add_owner_eq fault d id n E). cbv zeta.
      destruct (fault (List.length (log d))); [exact U|].
      destruct (find (is_edge id (JS.trim n)) (game_gamers (cur d))) eqn:F; [exact U|].
      destruct (fault (S (List.length (log d)))); [exact U|].
      cbn [fst cur]. intros g m.
      assert (D : (g = id /\ m = JS.trim n) \/ ~ (g = id /\ m = JS.trim n)).
      { destruct (Z.eq_dec g id), (string_dec m (JS.trim n)); tauto. }
      destruct D as [[-> ->]|D].
      * rewrite count_edges_insert.
        assert (C : count_edges (cur d) id (JS.trim n) = 0%nat).
        { destruct (Nat.eq_dec (count_edges (cur d) id (JS.trim n)) 0) as [C|C]; [exact C|].
          apply count_edges_owns, find_edge_owns in C. congruence. }
        lia.
      * rewrite (count_edges_insert_other _ _ _ _ _ D). apply U.
  - destruct n as [n|]; [|exact U].
    destruct (String.eqb_spec n "") as [E|E]; [subst; exact U|].
    rewrite (remove_owner_eq fault d id n E). cbv zeta.
    destruct (fault (List.length (log d))); [exact U|]. cbn [fst cur].
    intros g m. pose proof (count_edges_delete (cur d) (is_edge id n) g m).
    specialize (U g m). lia.
Qed.

(** ** The earlier server agrees on the direction of the size test *)

Lemma server_copy_playable_players (rows : list ServerCopy.row) (playersParam : string)
  (it : ServerCopy.item) :
  In it (ServerCopy.playable rows playersParam) ->
  ServerCopy.i_owners_in_group it <> "" /\
  Z.of_nat (List.length (map JS.trim (JS.split playersParam))) <= ServerCopy.i_players it.
Proof.
  unfold ServerCopy.playable. intros H. apply filter_In in H. destruct H as [_ H].
  apply andb_true_iff in H. destruct H as [H1 H2].
  split; [now apply JSFacts.nonEmpty_true | now apply Z.geb_le].
Qed.

Example server_copy_larger_game :
  ServerCopy.playable
    [{| ServerCopy.rowid := 1; ServerCopy.game := "Catan"; ServerCopy.players := 3;
        ServerCopy.gamers := Some "Alice,Bob" |}] "Alice"
  = [{| ServerCopy.i_rowid := 1; ServerCopy.i_game := "Catan"; ServerCopy.i_players := 3;
        ServerCopy.i_gamer_list := Some "Alice,Bob";
        ServerCopy.i_owners_in_group := "Alice" |}].
Proof. reflexivity. Qed.

(** ** Every request is answered *)

Lemma create_game_answers (fault : nat -> bool) (d : db) (game : option string)
  (players : JS.value) (gamers : option string) :
  snd (create_game fault d game players gamers) <> Pending.
Proof.
  destruct game as [g|]; [|discriminate].
  destruct (JS.nonEmpty g) eqn:G;
    [|unfold create_game; rewrite G; discriminate].
  destruct (JS.truthy players) eqn:P;
    [|unfold create_game; rewrite G, P; discriminate].
  apply JSFacts.nonEmpty_true in G.
  rewrite (create_game_eq fault d g players gamers G P). cbv zeta.
  destruct (db_run fault (fst (db_run fault d BEGIN_TRANSACTION))
              (INSERT_INTO_games g (JS.parseInt players))) as [d2 [|id c]];
    [discriminate|].
  destruct (insert_gamers fault d2 id (owner_names gamers)) as [d3 e].
  destruct (0 <? e)%nat; discriminate.
Qed.

(** On the inputs of the embedding (fields that are strings when
    present), no path of a handler ends without a response. *)
Lemma handle_answers (fault : nat -> bool) (d : db) (r : request) :
  snd (handle fault d r) <> Pending.
Proof.
  destruct r as [|p|game players gamers|id|id n|id n]; cbn [handle].
  - unfold list_all, getGamesWithGamers, db_all.
    destruct (faulty fault d); discriminate.
  - unfold list_playable, getPlayableGames, db_all.
    destruct p as [p|]; [|discriminate].
    destruct (negb (JS.nonEmpty p)); [discriminate|].
    destruct (List.length (JS.names_of p) =? 0)%nat; [discriminate|].
    destruct (faulty fault d); discriminate.
  - apply create_game_answers.
  - unfold delete_game.
    destruct (db_run fault (fst (db_run fault d BEGIN_TRANSACTION))
                (DELETE_FROM_game_gamers_WHERE_game_id id)) as [d2 [|l c]];
      [discriminate|].
    destruct (db_run fault d2 (DELETE_FROM_games_WHERE_id id)) as [d3 [|l' c']];
      [discriminate|].
    destruct (c' =? 0)%nat; discriminate.
  - unfold add_owner. destruct n as [n|]; [|discriminate].
    destruct (negb (JS.nonEmpty n) || negb (JS.nonEmpty (JS.trim n))); [discriminate|].
    destruct (db_get fault d id (JS.trim n)) as [d1 [[e|]|]]; try discriminate.
    destruct (db_run fault d1 (INSERT_INTO_game_gamers id (JS.trim n))) as [d2 [|l c]];
      discriminate.
  - unfold remove_owner. destruct n as [n|]; [|discriminate].
    destruct (negb (JS.nonEmpty n)); [discriminate|].
    destruct (db_run fault d (DELETE_FROM_game_gamers_WHERE_game_id_AND_gamer_name id n))
      as [d1 [|l c]]; [discriminate|].
    destruct (c =? 0)%nat; discriminate.
Qed.

(** ** Properties of the tables that every request keeps *)

Section TableInvariant.
Variable fault : nat -> bool.
Variable P : tables -> Prop.
Hypothesis P_insert_game :
  forall t game players, P t -> P (fst (insert_game t game players)).
Hypothesis P_insert_gamer :
  forall t id name, P t -> P (fst (insert_gamer t id name)).
Hypothesis P_delete_gamers : forall t p, P t -> P (fst (delete_gamers t p)).
Hypothesis P_delete_games : forall t p, P t -> P (fst (delete_games t p)).

Lemma db_run_holds (d : db) (s : statement) :
  holds P d -> holds P (fst (db_run fault d s)).
Proof.
  intros [C T].
  assert (Same : forall l, holds P {| cur := cur d; txn := txn d; log := l |})
    by (intros l; split; [exact C | exact T]).
  assert (New : forall t l, P t -> holds P {| cur := t; txn := txn d; log := l |})
    by (intros t l Ht; split; [exact Ht | exact T]).
  unfold db_run, faulty, failed, issue.
  destruct s.
  - destruct (txn d) as [t|] eqn:E; cbn [fst]; [apply Same|].
    split; [exact C|]. cbn [txn]. intros t Ht. now injection Ht as <-.
  - destruct (txn d) as [t|] eqn:E; cbn [fst]; [|apply Same].
    split; [exact C | discriminate].
  - destruct (txn d) as [t|] eqn:E; cbn [fst]; [|apply Same].
    split; [now apply T | discriminate].
  - destruct (fault (List.length (log d))); [apply Same|].
    destruct players as [p|]; [|apply Same].
    apply New. now apply P_insert_game.
  - destruct (fault (List.length (log d))); [apply Same|].
    apply New. now apply P_insert_gamer.
  - destruct (fault (List.length (log d))); [apply Same|].
    apply New. now apply P_delete_gamers.
  - destruct (fault (List.length (log d))); [apply Same|].
    apply New. now apply P_delete_games.
  - destruct (fault (List.length (log d))); [apply Same|].
    apply New. now apply P_delete_gamers.
Qed.

Lemma db_get_holds (d : db) (id : Z) (name : string) :
  holds P d -> holds P (fst (db_get fault d id name)).
Proof.
  intros H. unfold db_get, failed, issue. now destruct (faulty fault d).
Qed.

Lemma db_all_holds (d : db) (q : query) :
  holds P d -> holds P (fst (db_all fault d q)).
Proof.
  intros H. unfold db_all, failed, issue. now destruct (faulty fault d).
Qed.

Lemma insert_gamers_holds (id : Z) (names : list string) (d : db) :
  holds P d -> holds P (fst (insert_gamers fault d id names)).
Proof.
  revert d. induction names as [|n rest IH]; intros d H; [exact H|].
  cbn [insert_gamers].
  destruct (db_run fault d (INSERT_INTO_game_gamers id n)) as [d1 r] eqn:E.
  assert (H1 : holds P d1).
  { replace d1 with (fst (db_run fault d (INSERT_INTO_game_gamers id n)))
      by now rewrite E.
    now apply db_run_holds. }
  specialize (IH d1 H1). destruct (insert_gamers fault d1 id rest) as [d2 e]. exact IH.
Qed.

Lemma create_game_holds (d : db) (game : option string) (players : JS.value)
  (gamers : option string) :
  holds P d -> holds P (fst (create_game fault d game players gamers)).
Proof.
  intros H. destruct game as [g|]; [|exact H].
  destruct (JS.nonEmpty g) eqn:G;
    [|unfold create_game; rewrite G; exact H].
  destruct (JS.truthy players) eqn:T;
    [|unfold create_game; rewrite G, T; exact H].
  apply JSFacts.nonEmpty_true in G.
  rewrite (create_game_eq fault d g players gamers G T). cbv zeta.
  assert (H1 := db_run_holds d BEGIN_TRANSACTION H).
  destruct (db_run fault (fst (db_run fault d BEGIN_TRANSACTION))
              (INSERT_INTO_games g (JS.parseInt players))) as [d2 r] eqn:E.
  assert (H2 : holds P d2).
  { replace d2 with (fst (db_run fault (fst (db_run fault d BEGIN_TRANSACTION))
                            (INSERT_INTO_games g (JS.parseInt players))))
      by now rewrite E.
    now apply db_run_holds. }
  destruct r as [|id c]; [now apply db_run_holds|].
  assert (H3 := insert_gamers_holds id (owner_names gamers) d2 H2).
  destruct (insert_gamers fault d2 id (owner_names gamers)) as [d3 e].
  destruct (0 <? e)%nat; now apply db_run_holds.
Qed.

(** A property of the tables that the two inserts and the two deletions
    keep is kept by every request, whatever the store fails. *)
Lemma handle_holds (d : db) (r : request) :
  holds P d -> holds P (fst (handle fault d r)).
Proof.
  intros H. destruct r as [|p|game players gamers|id|id n|id n]; cbn [handle].
  - unfold list_all, getGamesWithGamers.
    assert (H1 := db_all_holds d SELECT_games_with_gamers H).
    now destruct (db_all fault d SELECT_games_with_gamers) as [d1 [rows|]].
  - unfold list_playable, getPlayableGames.
    destruct p as [p|]; [|exact H].
    destruct (negb (JS.nonEmpty p)); [exact H|].
    destruct (List.length (JS.names_of p) =? 0)%nat; [exact H|].
    assert (H1 := db_all_holds d (SELECT_playable_games (JS.names_of p)) H).
    now destruct (db_all fault d (SELECT_playable_games (JS.names_of p))) as [d1 [rows|]].
  - now apply create_game_holds.
  - unfold delete_game.
    assert (H1 := db_run_holds d BEGIN_TRANSACTION H).
    destruct (db_run fault (fst (db_run fault d BEGIN_TRANSACTION))
                (DELETE_FROM_game_gamers_WHERE_game_id id)) as [d2 r] eqn:E.
    assert (H2 : holds P d2).
    { replace d2 with (fst (db_run fault (fst (db_run fault d BEGIN_TRANSACTION))
                              (DELETE_FROM_game_gamers_WHERE_game_id id)))
        by now rewrite E.
      now apply db_run_holds. }
    destruct r as [|l c]; [now apply db_run_holds|].
    destruct (db_run fault d2 (DELETE_FROM_games_WHERE_id id)) as [d3 r] eqn:E3.
    assert (H3 : holds P d3).
    { replace d3 with (fst (db_run fault d2 (DELETE_FROM_games_WHERE_id id)))
        by now rewrite E3.
      now apply db_run_holds. }
    destruct r as [|l' c']; [now apply db_run_holds|].
    destruct (c' =? 0)%nat; now apply db_run_holds.
  - unfold add_owner. destruct n as [n|]; [|exact H].
    destruct (negb (JS.nonEmpty n) || negb (JS.nonEmpty (JS.trim n))); [exact H|].
    assert (H1 := db_get_holds d id (JS.trim n) H).
    destruct (db_get fault d id (JS.trim n)) as [d1 [[e|]|]]; cbn [fst] in *; try exact H1.
    assert (H2 := db_run_holds d1 (INSERT_INTO_game_gamers id (JS.trim n)) H1).
    now destruct (db_run fault d1 (INSERT_INTO_game_gamers id (JS.trim n))) as [d2 [|l c]].
  - unfold remove_owner. destruct n as [n|]; [|exact H].
    destruct (negb (JS.nonEmpty n)); [exact H|].
    assert (H1 := db_run_holds d
                    (DELETE_FROM_game_gamers_WHERE_game_id_AND_gamer_name id n) H).
    destruct (db_run fault d (DELETE_FROM_game_gamers_WHERE_game_id_AND_gamer_name id n))
      as [d1 [|l c]]; cbn [fst] in *; [exact H1|].
    now destruct (c =? 0)%nat.
Qed.

Lemma run_requests_holds (rs : list request) (d : db) :
  holds P d -> holds P (run_requests fault d rs).
Proof.
  revert d. induction rs as [|r rs IH]; intros d H; [exact H|].
  cbn [run_requests fold_left]. apply IH. now apply handle_holds.
Qed.

End TableInvariant.

(** ** Row ids *)

Lemma reachable_run_requests (fault : nat -> bool) (rs : list request) (d : db) :
  reachable fault d -> reachable fault (run_requests fault d rs).
Proof.
  revert d. induction rs as [|r rs IH]; intros d R; [exact R|].
  cbn [run_requests fold_left]. apply IH. now apply reachable_handle.
Qed.

Lemma next_rowid_above (seq : Z) (ids : list Z) : seq < next_rowid seq ids.
Proof. unfold next_rowid. lia. Qed.

Lemma next_rowid_positive (seq : Z) (ids : list Z) : 0 < next_rowid seq ids.
Proof.
  unfold next_rowid.
  assert (0 <= fold_right Z.max 0 ids) by (induction ids; simpl; lia). lia.
Qed.

Lemma filter_keeps_distinct_keys {Row Key : Type} (key : Row -> Key)
  (keep : Row -> bool) (rows : list Row) (D : NoDup (map key rows)) :
  NoDup (map key (filter keep rows)).
Proof.
  induction rows as [|x rows IH]; cbn [map filter]; [constructor|].
  inversion D as [|? ? N D']; subst. destruct (keep x); [|now apply IH].
  cbn [map]. constructor; [|now apply IH].
  intros I. apply N. apply in_map_iff in I. destruct I as (y & E & Hy).
  apply filter_In in Hy. apply in_map_iff. exists y. tauto.
Qed.

Lemma NoDup_map_snoc {A : Type} (f : A -> Z) (l : list A) (x : A) :
  NoDup (map f l) -> (forall y, In y l -> f y < f x) -> NoDup (map f (l ++ [x])).
Proof.
  intros N B. rewrite map_app. cbn [map].
  apply NoDup_app; [exact N | repeat constructor; intros [] |].
  intros z Hz [<-|[]]. apply in_map_iff in Hz. destruct Hz as (y & E & Hy).
  specialize (B y Hy). lia.
Qed.

Lemma ids_bounded_insert_game (t : tables) (game : string) (players : Z) :
  ids_bounded t -> ids_bounded (fst (insert_game t game players)).
Proof.
  intros (G & NG & E & NE). unfold ids_bounded. cbn [insert_game fst games game_gamers
    seq_games seq_game_gamers].
  pose proof (next_rowid_above (seq_games t) (map g_id (games t))) as A.
  pose proof (next_rowid_positive (seq_games t) (map g_id (games t))) as Pos.
  split; [|split; [|split; assumption]].
  - apply Forall_app. split.
    + eapply Forall_impl; [|exact G]. cbn. intros g Hg. lia.
    + constructor; [cbn; lia | constructor].
  - apply NoDup_map_snoc; [exact NG|]. intros y Hy. cbn [g_id].
    apply next_rowid_fresh. now apply in_map.
Qed.

Lemma ids_bounded_insert_gamer (t : tables) (id : Z) (name : string) :
  ids_bounded t -> ids_bounded (fst (insert_gamer t id name)).
Proof.
  intros (G & NG & E & NE). unfold ids_bounded. cbn [insert_gamer fst games game_gamers
    seq_games seq_game_gamers].
  pose proof (next_rowid_above (seq_game_gamers t) (map gg_id (game_gamers t))) as A.
  pose proof (next_rowid_positive (seq_game_gamers t) (map gg_id (game_gamers t))) as Pos.
  split; [exact G|]. split; [exact NG|]. split.
  - apply Forall_app. split.
    + eapply Forall_impl; [|exact E]. cbn. intros r Hr. lia.
    + constructor; [cbn; lia | constructor].
  - apply NoDup_map_snoc; [exact NE|]. intros y Hy. cbn [gg_id].
    apply next_rowid_fresh. now apply in_map.
Qed.

Lemma ids_bounded_delete_gamers (t : tables) (p : gamer_row -> bool) :
  ids_bounded t -> ids_bounded (fst (delete_gamers t p)).
Proof.
  intros (G & NG & E & NE). unfold ids_bounded. cbn [delete_gamers fst games game_gamers
    seq_games seq_game_gamers].
  split; [exact G|]. split; [exact NG|]. split.
  - now apply Forall_filter_keep.
  - now apply filter_keeps_distinct_keys.
Qed.

Lemma ids_bounded_delete_games (t : tables) (p : game_row -> bool) :
  ids_bounded t -> ids_bounded (fst (delete_games t p)).
Proof.
  intros (G & NG & E & NE). unfold ids_bounded. cbn [delete_games fst games game_gamers
    seq_games seq_game_gamers].
  split; [now apply Forall_filter_keep|]. split; [now apply filter_keeps_distinct_keys|].
  split; assumption.
Qed.

Lemma run_requests_ids (fault : nat -> bool) (rs : list request) :
  ids_bounded (cur (run_requests fault new_db rs)).
Proof.
  assert (H : holds ids_bounded new_db).
  { split; [|intros t Ht; discriminate Ht].
    unfold ids_bounded. cbn. repeat split; constructor. }
  exact (proj1 (run_requests_holds fault ids_bounded
                  ids_bounded_insert_game ids_bounded_insert_gamer
                  ids_bounded_delete_gamers ids_bounded_delete_games rs new_db H)).
Qed.

(** X8.  Whatever requests were served and whatever the store failed, the ids
    of the games are positive and pairwise distinct, as are the ids of the
    edges, and none exceeds the sequence value of its table. *)
Theorem ids_stay_distinct (fault : nat -> bool) (rs : list request) :
  ids_bounded (cur (run_requests fault new_db rs)).
Proof. apply run_requests_ids. Qed.

Lemma retired_insert_game (id : Z) (t : tables) (game : string) (players : Z) :
  retired id t -> retired id (fst (insert_game t game players)).
Proof.
  intros [B N]. unfold retired. cbn [insert_game fst seq_games].
  pose proof (next_rowid_above (seq_games t) (map g_id (games t))) as A.
  split; [lia|]. intros (g & Hg & E). cbn [games] in Hg.
  apply in_app_or in Hg. destruct Hg as [Hg|[<-|[]]].
  - apply N. now exists g.
  - cbn [g_id] in E. lia.
Qed.

Lemma retired_insert_gamer (id : Z) (t : tables) (game_id : Z) (name : string) :
  retired id t -> retired id (fst (insert_gamer t game_id name)).
Proof. intros H. exact H. Qed.

Lemma retired_delete_gamers (id : Z) (t : tables) (p : gamer_row -> bool) :
  retired id t -> retired id (fst (delete_gamers t p)).
Proof. intros H. exact H. Qed.

Lemma retired_delete_games (id : Z) (t : tables) (p : game_row -> bool) :
  retired id t -> retired id (fst (delete_games t p)).
Proof.
  intros [B N]. split; [exact B|]. intros (g & Hg & E).
  cbn [delete_games fst games] in Hg. apply filter_In in Hg.
  apply N. exists g. tauto.
Qed.

(** X9.  The id of a deleted game is never given to another game: once
    [delete_game] has answered with success, no later request, whatever the
    store fails, makes a game with that id exist again. *)
Theorem deleted_id_never_reused (fault : nat -> bool) (before after : list request)
  (id : Z) :
  let d := run_requests fault new_db before in
  snd (delete_game fault d id) = Reply 200 (Success None) ->
  ~ game_exists (cur (run_requests fault (fst (delete_game fault d id)) after)) id.
Proof.
  intros d Ok.
  assert (R : reachable fault d) by (apply reachable_run_requests; constructor).
  destruct (reachable_invariant fault d R) as [I _].
  pose proof (run_requests_ids fault before) as B. fold d in B.
  assert (H : holds (retired id) (fst (delete_game fault d id))).
  { rewrite (delete_game_eq fault d id I) in Ok |- *. cbv zeta in Ok |- *.
    destruct (fault (S (List.length (log d)))); [discriminate Ok|].
    destruct (fault (S (S (List.length (log d))))); [discriminate Ok|].
    destruct (List.length (filter (has_id id) (games (cur d))) =? 0)%nat eqn:C;
      [discriminate Ok|].
    cbn [fst]. split; [|intros t Ht; discriminate Ht]. cbn [cur]. split.
    - cbn [seq_games].
      destruct (filter (has_id id) (games (cur d))) as [|g l] eqn:F; [discriminate C|].
      assert (Hg : In g (filter (has_id id) (games (cur d)))) by (rewrite F; now left).
      apply filter_In in Hg. destruct Hg as [Hg E]. unfold has_id in E.
      apply Z.eqb_eq in E. destruct B as (G & _). rewrite Forall_forall in G.
      specialize (G g Hg). lia.
    - intros (g & Hg & E). cbn [games] in Hg. apply filter_In in Hg.
      destruct Hg as [_ Hg]. unfold has_id in Hg.
      apply negb_true_iff, Z.eqb_neq in Hg. contradiction. }
  exact (proj2 (proj1 (run_requests_holds fault (retired id)
                         (retired_insert_game id) (retired_insert_gamer id)
                         (retired_delete_gamers id) (retired_delete_games id)
                         after _ H))).
Qed.

Lemma deleted_id_never_reused_witness :
  let before := [POST_games_all (Some "Catan") (JS.Num 3) (Some "Alice")] in
  let after := [POST_games_all (Some "Chess") (JS.Num 2) None;
                POST_game_gamers 1 (Some "Bob")] in
  let d := run_requests no_fault new_db before in
  ~ game_exists (cur (run_requests no_fault (fst (delete_game no_fault d 1)) after)) 1.
Proof.
  intros before after d.
  apply (deleted_id_never_reused no_fault before after 1). reflexivity.
Defined.

(** X10.  Whatever requests were served and whatever the store failed, no
    transaction is left open between two requests, and every stored owner
    name is non-empty and neither begins nor ends with a white space
    character. *)
Theorem requests_leave_idle (fault : nat -> bool) (rs : list request) :
  txn (run_requests fault new_db rs) = None /\
  Forall (fun r => gg_gamer_name r <> "" /\ outer_space (gg_gamer_name r) = false)
    (game_gamers (cur (run_requests fault new_db rs))).
Proof.
  destruct (reachable_invariant fault (run_requests fault new_db rs)) as [I N].
  { apply reachable_run_requests. constructor. }
  split; [exact I|]. eapply Forall_impl; [|exact N].
  intros r [NE T]. split; [exact NE|]. rewrite <- T. apply trim_no_outer_space.
Qed.

(** ** The order and the content of the two lists *)

Lemma ascii_compare_refl (c : ascii) : Ascii.compare c c = Eq.
Proof. unfold Ascii.compare. apply N.compare_refl. Qed.

Lemma string_leb_trans (a b c : string) :
  String.leb a b = true -> String.leb b c = true -> String.leb a c = true.
Proof.
  unfold String.leb. revert b c.
  induction a as [|x a IH]; intros [|y b] [|z c]; cbn [String.compare]; try easy.
  destruct (Ascii.compare x y) eqn:XY; try easy;
    destruct (Ascii.compare y z) eqn:YZ; try easy.
  - apply Ascii.compare_eq_iff in XY, YZ. subst. rewrite ascii_compare_refl. apply IH.
  - apply Ascii.compare_eq_iff in XY. subst. now rewrite YZ.
  - apply Ascii.compare_eq_iff in YZ. subst. now rewrite XY.
  - unfold Ascii.compare in *. rewrite N.compare_lt_iff in XY, YZ.
    assert (L : (N_of_ascii x < N_of_ascii z)%N) by lia.
    apply N.compare_lt_iff in L. now rewrite L.
Qed.

Lemma insert_row_sorted (r : result_row) (l : list result_row) :
  StronglySorted row_by_game l -> StronglySorted row_by_game (insert_row r l).
Proof.
  induction 1 as [|h t S IH F]; cbn [insert_row].
  - repeat constructor.
  - destruct (String.leb (r_game r) (r_game h)) eqn:E.
    + constructor; [now constructor|]. constructor; [exact E|].
      eapply Forall_impl; [|exact F]. intros x Hx.
      exact (string_leb_trans _ _ _ E Hx).
    + constructor; [exact IH|]. apply Forall_forall. intros x Hx.
      apply In_insert_row in Hx. destruct Hx as [->|Hx].
      * destruct (String.leb_total (r_game r) (r_game h)) as [T|T]; [congruence|exact T].
      * rewrite Forall_forall in F. now apply F.
Qed.

Lemma order_by_game_sorted (l : list result_row) :
  StronglySorted row_by_game (order_by_game l).
Proof.
  induction l as [|h t IH]; cbn [order_by_game fold_right]; [constructor|].
  now apply insert_row_sorted.
Qed.

Lemma insert_row_perm (r : result_row) (l : list result_row) :
  Permutation (insert_row r l) (r :: l).
Proof.
  induction l as [|h t IH]; cbn [insert_row]; [reflexivity|].
  destruct (String.leb (r_game r) (r_game h)); [reflexivity|].
  rewrite IH. apply perm_swap.
Qed.

Lemma order_by_game_perm (l : list result_row) : Permutation (order_by_game l) l.
Proof.
  induction l as [|h t IH]; cbn [order_by_game fold_right]; [reflexivity|].
  rewrite insert_row_perm. now constructor.
Qed.

Lemma sorted_map_items (f : result_row -> item) (l : list result_row) :
  (forall r, i_game (f r) = r_game r) ->
  StronglySorted row_by_game l -> StronglySorted by_game (map f l).
Proof.
  intros E. induction 1 as [|h t S IH F]; cbn [map]; constructor; [exact IH|].
  apply Forall_forall. intros x Hx. apply in_map_iff in Hx. destruct Hx as (y & <- & Hy).
  rewrite Forall_forall in F. unfold by_game. rewrite !E. now apply F.
Qed.

(** X1.  [list_all], when the store answers: one item per game of the
    catalogue, each with the names of its owners joined by commas (the
    empty string for a game nobody owns) and a null [owners_in_group],
    in ascending order of the game names. *)
Theorem list_all_shows_every_game (fault : nat -> bool) (d : db) :
  fault (List.length (log d)) = false ->
  exists items,
    snd (list_all fault d) = Reply 200 (Items items) /\
    Permutation items (map (item_of_game (cur d)) (games (cur d))) /\
    StronglySorted by_game items.
Proof.
  intros F. rewrite (list_all_eq fault d F). cbn [snd].
  eexists. split; [reflexivity|]. split.
  - unfold select_games_with_gamers.
    rewrite (Permutation_map game_item (order_by_game_perm _)), map_map.
    erewrite map_ext; [reflexivity|].
    intros g. unfold game_item, item_of_game. cbn. now rewrite or_empty_group_concat.
  - apply sorted_map_items; [reflexivity | apply order_by_game_sorted].
Qed.

Lemma list_all_shows_every_game_witness :
  exists items,
    snd (list_all no_fault
           (run_requests no_fault new_db
              [POST_games_all (Some "Go") (JS.Num 2) None;
               POST_games_all (Some "Catan") (JS.Num 3) (Some "Alice,Bob")]))
    = Reply 200 (Items items) /\
    Permutation items
      [{| i_rowid := 1; i_game := "Go"; i_players := 2; i_gamer_list := "";
          i_owners_in_group := None |};
       {| i_rowid := 2; i_game := "Catan"; i_players := 3; i_gamer_list := "Alice,Bob";
          i_owners_in_group := None |}] /\
    StronglySorted by_game items.
Proof.
  exact (list_all_shows_every_game no_fault
           (run_requests no_fault new_db
              [POST_games_all (Some "Go") (JS.Num 2) None;
               POST_games_all (Some "Catan") (JS.Num 3) (Some "Alice,Bob")]) eq_refl).
Defined.

Lemma In_distinct (l : list string) (x : string) : In x (distinct l) <-> In x l.
Proof.
  induction l as [|h t IH]; cbn [distinct]; [reflexivity|].
  cbn [In]. rewrite filter_In, IH, negb_true_iff, String.eqb_neq.
  destruct (string_dec h x); intuition.
Qed.

Lemma NoDup_distinct (l : list string) : NoDup (distinct l).
Proof.
  induction l as [|h t IH]; cbn [distinct]; constructor.
  - intros H. apply filter_In in H. destruct H as [_ H].
    apply negb_true_iff, String.eqb_neq in H. now apply H.
  - now apply NoDup_filter.
Qed.

(** X2.  [list_playable], for a non-empty group and a store that answers:
    the items are in ascending order of the game names, and each one is a
    game of the catalogue with its distinct owners joined in [gamer_list]
    and, in [owners_in_group], the comma join of a non-empty list without
    repetition that holds exactly the owners who are in the group. *)
Theorem list_playable_items (fault : nat -> bool) (d : db) (p : string) :
  JS.names_of p <> [] ->
  fault (List.length (log d)) = false ->
  exists items,
    snd (list_playable fault d (Some p)) = Reply 200 (Items items) /\
    StronglySorted by_game items /\
    forall it, In it items ->
      exists g owners,
        In g (games (cur d)) /\
        i_rowid it = g_id g /\ i_game it = g_game g /\ i_players it = g_players g /\
        i_gamer_list it = JS.join (distinct (gamers_of (cur d) g)) /\
        i_owners_in_group it = Some (JS.join owners) /\
        owners <> [] /\ NoDup owners /\
        forall n, In n owners <-> In n (JS.names_of p) /\ owns (cur d) (g_id g) n.
Proof.
  intros NE F. rewrite (list_playable_eq fault d p NE), F. cbn [snd].
  eexists. split; [reflexivity|]. split.
  - apply sorted_map_items; [reflexivity|]. unfold select_playable_games.
    apply order_by_game_sorted.
  - intros it Hit. apply in_map_iff in Hit. destruct Hit as (x & <- & Hx).
    apply select_playable_games_In in Hx. destruct Hx as (g & Hg & [(n & Hn & On) _] & ->).
    exists g, (distinct (filter (in_group (JS.names_of p)) (gamers_of (cur d) g))).
    assert (M : forall m, In m (distinct (filter (in_group (JS.names_of p))
                                             (gamers_of (cur d) g)))
                          <-> In m (JS.names_of p) /\ owns (cur d) (g_id g) m).
    { intros m. rewrite In_distinct, filter_In, gamers_of_owns, in_group_In. tauto. }
    split; [exact Hg|]. cbn [playable_item playable_row i_rowid i_game i_players
      i_gamer_list i_owners_in_group r_id r_game r_players r_gamer_list r_owners_in_group].
    rewrite !or_empty_group_concat.
    repeat (split; [reflexivity|]).
    split; [|split; [apply NoDup_distinct | exact M]].
    intros E. assert (In n []) by (rewrite <- E; apply M; tauto). contradiction.
Qed.

Lemma list_playable_items_witness :
  exists items,
    snd (list_playable no_fault
           (run_requests no_fault new_db
              [POST_games_all (Some "Catan") (JS.Num 3) (Some "Alice,Bob")])
           (Some "Bob, Alice"))
    = Reply 200 (Items items) /\
    StronglySorted by_game items.
Proof.
  destruct (list_playable_items no_fault
              (run_requests no_fault new_db
                 [POST_games_all (Some "Catan") (JS.Num 3) (Some "Alice,Bob")])
              "Bob, Alice") as (items & E & S & _).
  - vm_compute. discriminate.
  - reflexivity.
  - exists items. split; [exact E | exact S].
Defined.

(** X4.  The two listing requests read only: whatever the parameter and
    whatever the store fails, the tables and the transaction state are as
    before, and at most the one query was sent. *)
Theorem reads_change_nothing (fault : nat -> bool) (d : db) (r : request) :
  (r = GET_games_all \/ exists p, r = GET_games_playable p) ->
  cur (fst (handle fault d r)) = cur d /\
  txn (fst (handle fault d r)) = txn d /\
  (log (fst (handle fault d r)) = log d \/
   exists q, log (fst (handle fault d r)) = (log d ++ [All q])%list).
Proof.
  intros [->|(p & ->)]; cbn [handle].
  - unfold list_all, getGamesWithGamers, db_all, failed, issue.
    destruct (faulty fault d); cbn [fst cur txn log];
      (split; [reflexivity|]; split; [reflexivity|]; right; now eexists).
  - unfold list_playable, getPlayableGames, db_all, failed, issue.
    destruct p as [p|]; [|now repeat split; try left].
    destruct (negb (JS.nonEmpty p)); [now repeat split; try left|].
    destruct (List.length (JS.names_of p) =? 0)%nat; [now repeat split; try left|].
    destruct (faulty fault d); cbn [fst cur txn log];
      (split; [reflexivity|]; split; [reflexivity|]; right; now eexists).
Qed.

Lemma reads_change_nothing_witness :
  let d := run_requests no_fault new_db
             [POST_games_all (Some "Catan") (JS.Num 3) (Some "Alice,Bob")] in
  cur (fst (handle no_fault d (GET_games_playable (Some "Alice")))) = cur d /\
  txn (fst (handle no_fault d (GET_games_playable (Some "Alice")))) = txn d.
Proof.
  intros d.
  destruct (reads_change_nothing no_fault d (GET_games_playable (Some "Alice")))
    as (C & T & _).
  - right. now exists (Some "Alice").
  - split; [exact C | exact T].
Defined.

Lemma lists_game_playable (fault : nat -> bool) (d : db) (p : string) (g : game_row) :
  JS.names_of p <> [] ->
  fault (List.length (log d)) = false ->
  lists_game (snd (list_playable fault d (Some p))) g
  <-> In g (games (cur d)) /\ playable_by (cur d) (JS.names_of p) g.
Proof.
  intros NE F.
  rewrite (list_playable_eq fault d p NE), F. cbn [snd]. unfold lists_game. split.
  - intros (items & it & E & Hit & I1 & I2 & I3).
    injection E as <-. apply in_map_iff in Hit. destruct Hit as (x & <- & Hx).
    apply select_playable_games_In in Hx. destruct Hx as (g' & Hg' & P & ->).
    cbn in I1, I2, I3.
    assert (g' = g) by (destruct g', g; cbn in *; congruence). subst g'.
    split; [exact Hg' | exact P].
  - intros (Hg & P). eexists. exists (playable_item (playable_row (cur d) (JS.names_of p) g)).
    split; [reflexivity|]. split; [|now cbn].
    apply in_map. apply select_playable_games_In. now exists g.
Qed.

(** X3.  A game listed for a group stays listed for any group that has no
    more names and still holds one of its owners: the size test only
    bounds the group from above. *)
Theorem list_playable_subgroup (fault : nat -> bool) (d : db) (p p' : string)
  (g : game_row) :
  fault (List.length (log d)) = false ->
  (List.length (JS.names_of p') <= List.length (JS.names_of p))%nat ->
  (exists n, In n (JS.names_of p') /\ owns (cur d) (g_id g) n) ->
  lists_game (snd (list_playable fault d (Some p))) g ->
  lists_game (snd (list_playable fault d (Some p'))) g.
Proof.
  intros F Le (n & Hn & O) L.
  assert (NE' : JS.names_of p' <> []) by (intros E; rewrite E in Hn; contradiction).
  assert (NE : JS.names_of p <> []).
  { intros E. rewrite E in Le. destruct (JS.names_of p'); [congruence | cbn in Le; lia]. }
  apply (lists_game_playable fault d p g NE F) in L. destruct L as [Hg [_ Sz]].
  apply (lists_game_playable fault d p' g NE' F). split; [exact Hg|]. split.
  - now exists n.
  - lia.
Qed.

Lemma list_playable_subgroup_witness :
  let d := run_requests no_fault new_db
             [POST_games_all (Some "Catan") (JS.Num 3) (Some "Alice,Bob")] in
  let g := {| g_id := 1; g_game := "Catan"; g_players := 3 |} in
  lists_game (snd (list_playable no_fault d (Some "Bob"))) g.
Proof.
  intros d g.
  apply (list_playable_subgroup no_fault d "Alice,Bob,Carol" "Bob" g).
  - reflexivity.
  - vm_compute. lia.
  - exists "Bob". split; [now left|].
    exists {| gg_id := 2; gg_game_id := 1; gg_gamer_name := "Bob" |}.
    split; [right; left; reflexivity | split; reflexivity].
  - eexists. eexists. split; [vm_compute; reflexivity|].
    split; [left; reflexivity|]. repeat split.
Defined.

(** ** Errors *)


(** X5.  A request that is refused with a ValidationError has sent nothing to
    the store: the connection, its log of statements included, is as it
    was. *)
Theorem validation_error_untouched (fault : nat -> bool) (d : db) (r : request) :
  failure_of (snd (handle fault d r)) = Some ValidationError ->
  fst (handle fault d r) = d.
Proof.
  destruct r as [|p|game players gamers|id|id n|id n]; cbn [handle].
  - unfold list_all, getGamesWithGamers, db_all.
    destruct (faulty fault d); discriminate.
  - unfold list_playable, getPlayableGames, db_all.
    destruct p as [p|]; [|reflexivity].
    destruct (negb (JS.nonEmpty p)); [reflexivity|].
    destruct (List.length (JS.names_of p) =? 0)%nat; [reflexivity|].
    destruct (faulty fault d); discriminate.
  - destruct game as [g|]; [|reflexivity].
    destruct (JS.nonEmpty g) eqn:G;
      [|unfold create_game; rewrite G; reflexivity].
    destruct (JS.truthy players) eqn:T;
      [|unfold create_game; rewrite G, T; reflexivity].
    apply JSFacts.nonEmpty_true in G.
    rewrite (create_game_eq fault d g players gamers G T). cbv zeta.
    destruct (db_run fault (fst (db_run fault d BEGIN_TRANSACTION))
                (INSERT_INTO_games g (JS.parseInt players))) as [d2 [|i c]];
      [discriminate|].
    destruct (insert_gamers fault d2 i (owner_names gamers)) as [d3 e].
    destruct (0 <? e)%nat; discriminate.
  - unfold delete_game.
    destruct (db_run fault (fst (db_run fault d BEGIN_TRANSACTION))
                (DELETE_FROM_game_gamers_WHERE_game_id id)) as [d2 [|l c]];
      [discriminate|].
    destruct (db_run fault d2 (DELETE_FROM_games_WHERE_id id)) as [d3 [|l' c']];
      [discriminate|].
    destruct (c' =? 0)%nat; discriminate.
  - unfold add_owner. destruct n as [n|]; [|reflexivity].
    destruct (negb (JS.nonEmpty n) || negb (JS.nonEmpty (JS.trim n))); [reflexivity|].
    destruct (db_get fault d id (JS.trim n)) as [d1 [[e|]|]]; try discriminate.
    destruct (db_run fault d1 (INSERT_INTO_game_gamers id (JS.trim n))) as [d2 [|l c]];
      discriminate.
  - unfold remove_owner. destruct n as [n|]; [|reflexivity].
    destruct (negb (JS.nonEmpty n)); [reflexivity|].
    destruct (db_run fault d (DELETE_FROM_game_gamers_WHERE_game_id_AND_gamer_name id n))
      as [d1 [|l c]]; [discriminate|].
    destruct (c =? 0)%nat; discriminate.
Qed.

Lemma validation_error_untouched_witness :
  fst (handle no_fault new_db (POST_game_gamers 1 (Some "   "))) = new_db.
Proof.
  apply (validation_error_untouched no_fault new_db (POST_game_gamers 1 (Some "   "))).
  reflexivity.
Defined.



(** X7.  A players value that is truthy but does not read as a number (a word,
    [true]) passes the check of [create_game] and fails at the store: from
    an idle connection the statements are BEGIN, the insert with a NULL
    players, and ROLLBACK; the answer is the StoreError "Failed to add
    game" and the tables are as before. *)
Theorem create_game_unreadable_players (fault : nat -> bool) (d : db) (game : string)
  (players : JS.value) (gamers : option string) :
  txn d = None ->
  game <> "" -> JS.truthy players = true -> JS.parseInt players = None ->
  snd (create_game fault d (Some game) players gamers)
  = Reply 500 (Error "Failed to add game") /\
  failure_of (snd (create_game fault d (Some game) players gamers)) = Some StoreError /\
  cur (fst (create_game fault d (Some game) players gamers)) = cur d /\
  log (fst (create_game fault d (Some game) players gamers))
  = (log d ++ [Run BEGIN_TRANSACTION; Run (INSERT_INTO_games game None);
               Run ROLLBACK])%list.
Proof.
  intros I G T N.
  pose proof (create_game_outcome fault d game players gamers I G T) as O.
  cbv zeta in O. rewrite N in O. destruct O as [_ O].
  replace (if fault (S (List.length (log d))) then None else None) with (@None Z) in O
    by now destruct (fault (S (List.length (log d)))).
  destruct O as (R & C & L). rewrite R. repeat split; assumption.
Qed.

Lemma create_game_unreadable_players_witness :
  snd (create_game no_fault new_db (Some "Catan") (JS.Str "three") (Some "Alice"))
  = Reply 500 (Error "Failed to add game") /\
  cur (fst (create_game no_fault new_db (Some "Catan") (JS.Str "three") (Some "Alice")))
  = cur new_db.
Proof.
  assert (G : "Catan" <> "") by discriminate.
  destruct (create_game_unreadable_players no_fault new_db "Catan" (JS.Str "three")
              (Some "Alice") eq_refl G eq_refl eq_refl) as (R & _ & C & _).
  split; [exact R | exact C].
Defined.

(** ** Round trips *)

(** X11.  For a game id of 64 bits, which the store holds and compares
    exactly: adding an owner that the game does not have yet and removing
    it again under the trimmed name, the store answering, both requests
    succeed, and both tables hold the rows they held before; only the edge
    sequence has advanced, to the id that was given out. *)
Theorem add_then_remove_trimmed (fault : nat -> bool) (d : db) (id : Z) (n : string) :
  - 2 ^ 63 <= id < 2 ^ 63 ->
  JS.trim n <> "" ->
  ~ owns (cur d) id (JS.trim n) ->
  sound fault (List.length (log d)) 3 ->
  let edge := next_rowid (seq_game_gamers (cur d)) (map gg_id (game_gamers (cur d))) in
  let added := add_owner fault d id (Some n) in
  let removed := remove_owner fault (fst added) id (Some (JS.trim n)) in
  snd added = Reply 200 (Success (Some edge)) /\
  snd removed = Reply 200 (Success None) /\
  game_gamers (cur (fst removed)) = game_gamers (cur d) /\
  games (cur (fst removed)) = games (cur d) /\
  seq_game_gamers (cur (fst removed)) = edge.
Proof.
  intros _ T O Snd edge added removed.
  assert (S2 : sound fault (List.length (log d)) 2) by (intros i Hi; apply Snd; lia).
  pose proof (add_owner_absent fault d id n T S2 O) as A.
  subst removed added. rewrite A. cbn [fst snd].
  rewrite (remove_owner_eq fault _ id (JS.trim n) T). cbv zeta. cbn [log cur txn].
  rewrite length_app. cbn [List.length].
  rewrite (Snd (List.length (log d) + 2)%nat) by lia.
  cbn [fst snd cur]. rewrite count_edges_insert. cbn [Nat.eqb].
  split; [reflexivity|]. split; [reflexivity|].
  cbn [delete_gamers insert_gamer fst game_gamers games seq_game_gamers].
  split; [|split; reflexivity].
  rewrite filter_app. cbn [filter].
  replace (is_edge id (JS.trim n) _) with true by (symmetry; now apply is_edge_true).
  cbn [negb]. rewrite app_nil_r. apply filter_all.
  intros r Hr. apply negb_true_iff, not_true_iff_false. rewrite is_edge_true.
  intros [E1 E2]. apply O. now exists r.
Qed.

Lemma add_then_remove_trimmed_witness :
  let added := add_owner no_fault new_db 1 (Some " Bob ") in
  let removed := remove_owner no_fault (fst added) 1 (Some "Bob") in
  snd removed = Reply 200 (Success None) /\
  game_gamers (cur (fst removed)) = game_gamers (cur new_db).
Proof.
  intros added removed.
  assert (T : JS.trim " Bob " <> "") by (vm_compute; discriminate).
  assert (O : ~ owns (cur new_db) 1 (JS.trim " Bob ")) by (intros (r & [] & _)).
  assert (Snd : sound no_fault (List.length (log new_db)) 3) by (intros i _; reflexivity).
  assert (B : - 2 ^ 63 <= 1 < 2 ^ 63) by (split; [discriminate | reflexivity]).
  destruct (add_then_remove_trimmed no_fault new_db 1 " Bob " B T O Snd)
    as (_ & R & E & _).
  split; [exact R | exact E].
Defined.

(** X12.  Creating a game and deleting it under the id that was answered, from
    an idle connection and with a store that answers: both requests
    succeed, the games are those of before, and the edges are those of
    before except the ones that referred to that id already. *)
Theorem create_then_delete (fault : nat -> bool) (d : db) (game : string)
  (players : JS.value) (p : Z) (gamers : option string) :
  txn d = None ->
  game <> "" -> JS.truthy players = true -> JS.parseInt players = Some p ->
  sound fault (List.length (log d)) (List.length (owner_names gamers) + 6) ->
  let id := next_rowid (seq_games (cur d)) (map g_id (games (cur d))) in
  let created := create_game fault d (Some game) players gamers in
  let deleted := delete_game fault (fst created) id in
  snd created = Reply 200 (Success (Some id)) /\
  snd deleted = Reply 200 (Success None) /\
  games (cur (fst deleted)) = games (cur d) /\
  game_gamers (cur (fst deleted))
  = filter (fun r => negb (of_game id r)) (game_gamers (cur d)).
Proof.
  intros I G T N Snd id created deleted.
  pose proof (create_game_outcome fault d game players gamers I G T) as O.
  cbv zeta in O. rewrite (Snd (S (List.length (log d)))) in O by lia.
  rewrite N in O. fold id created in O. destruct O as [I1 O].
  destruct O as [(_ & R & Lg & Gm & rows & R1 & R2 & R3) | (NS & _)].
  2:{ exfalso. apply NS. intros i Hi. apply Snd. lia. }
  assert (Len : List.length (log (fst created))
                = (List.length (log d) + List.length (owner_names gamers) + 3)%nat).
  { rewrite Lg, length_app. cbn [List.length]. rewrite length_app, length_map.
    cbn [List.length]. lia. }
  subst deleted. rewrite (delete_game_eq fault (fst created) id I1). cbv zeta.
  rewrite Len. rewrite (Snd (S _)) by lia. rewrite (Snd (S (S _))) by lia.
  assert (C : (List.length (filter (has_id id) (games (cur (fst created)))) =? 0)%nat
              = false).
  { apply not_true_iff_false. rewrite no_game_count. intros H. apply H.
    exists {| g_id := id; g_game := game; g_players := p |}. split; [|reflexivity].
    rewrite Gm. apply in_or_app. right. now left. }
  rewrite C. cbn [fst snd cur games game_gamers].
  split; [exact R|]. split; [reflexivity|]. split.
  - rewrite Gm, filter_app. cbn [filter]. unfold has_id at 2. cbn [g_id].
    rewrite Z.eqb_refl. cbn [negb].
    rewrite app_nil_r. apply filter_all. intros g Hg.
    apply negb_true_iff, Z.eqb_neq. unfold id.
    pose proof (next_rowid_fresh (seq_games (cur d)) (map g_id (games (cur d))) (g_id g)
                  (in_map g_id _ _ Hg)). lia.
  - rewrite R1, filter_app.
    rewrite (filter_none (fun r => negb (of_game id r)) rows); [now rewrite app_nil_r|].
    intros r Hr. rewrite Forall_forall in R2. apply negb_false_iff, Z.eqb_eq.
    now apply R2.
Qed.

Lemma create_then_delete_witness :
  let created := create_game no_fault new_db (Some "Catan") (JS.Num 3) (Some "Alice,Bob") in
  let deleted := delete_game no_fault (fst created) 1 in
  snd deleted = Reply 200 (Success None) /\
  games (cur (fst deleted)) = [] /\
  game_gamers (cur (fst deleted)) = [].
Proof.
  intros created deleted.
  assert (G : "Catan" <> "") by discriminate.
  destruct (create_then_delete no_fault new_db "Catan" (JS.Num 3) 3 (Some "Alice,Bob")
              eq_refl G eq_refl eq_refl) as (_ & R & E1 & E2).
  - intros i _. reflexivity.
  - split; [exact R|]. split; [exact E1 | exact E2].
Defined.

(** ** Comma separated names *)

Lemma split_nonempty (s : string) : JS.split s <> [].
Proof.
  induction s as [|c s IH]; cbn [JS.split]; [discriminate|].
  destruct (Ascii.eqb c ","); [discriminate|].
  destruct (JS.split s); [contradiction | discriminate].
Qed.

Lemma split_comma_free (s : string) : Forall (fun x => comma_free x = true) (JS.split s).
Proof.
  induction s as [|c s IH]; cbn [JS.split]; [repeat constructor|].
  destruct (Ascii.eqb c ",") eqn:E; [constructor; [reflexivity | exact IH]|].
  destruct (JS.split s) as [|h t]; [repeat constructor; cbn; now rewrite E|].
  inversion IH as [|? ? H1 H2]; subst.
  constructor; [cbn; now rewrite E, H1 | exact H2].
Qed.

Lemma split_app_comma (a b : string) :
  JS.split (a ++ String "," b) = (JS.split a ++ JS.split b)%list.
Proof.
  induction a as [|c a IH]; [reflexivity|].
  cbn [append JS.split]. rewrite IH.
  destruct (Ascii.eqb c ","); [reflexivity|].
  pose proof (split_nonempty a) as N.
  destruct (JS.split a) as [|h t]; [contradiction | reflexivity].
Qed.

Lemma split_single (x : string) : comma_free x = true -> JS.split x = [x].
Proof.
  induction x as [|c x IH]; cbn [comma_free JS.split]; [reflexivity|].
  intros H. apply andb_true_iff in H. destruct H as [H1 H2].
  apply negb_true_iff in H1. rewrite H1, (IH H2). reflexivity.
Qed.

Lemma join_cons (x y : string) (l : list string) :
  JS.join (x :: y :: l) = x ++ String "," (JS.join (y :: l)).
Proof. reflexivity. Qed.

Lemma split_join (l : list string) :
  Forall (fun x => comma_free x = true) l -> l <> [] -> JS.split (JS.join l) = l.
Proof.
  induction 1 as [|x l Hx F IH]; intros NE; [congruence|].
  destruct l as [|y l]; [now apply split_single|].
  rewrite join_cons, split_app_comma, (split_single x Hx), IH by discriminate.
  reflexivity.
Qed.

Lemma trimStart_comma_free (s : string) :
  comma_free s = true -> comma_free (JS.trimStart s) = true.
Proof.
  induction s as [|c s IH]; cbn [JS.trimStart]; [easy|].
  intros H. destruct (JS.isWhiteSpace c); [|exact H].
  cbn [comma_free] in H. apply andb_true_iff in H. now apply IH.
Qed.

Lemma trimEnd_comma_free (s : string) :
  comma_free s = true -> comma_free (JS.trimEnd s) = true.
Proof.
  induction s as [|c s IH]; cbn [JS.trimEnd comma_free]; [easy|].
  intros H. apply andb_true_iff in H. destruct H as [H1 H2]. specialize (IH H2).
  destruct (JS.trimEnd s).
  - destruct (JS.isWhiteSpace c); [reflexivity | cbn; now rewrite H1].
  - cbn [comma_free] in IH |- *. now rewrite H1, IH.
Qed.

Lemma names_of_plain (s : string) : Forall plain_name (JS.names_of s).
Proof.
  apply Forall_forall. intros n Hn.
  destruct (JSFacts.names_of_trimmed s n Hn) as [NE T].
  split; [exact NE|]. split; [exact T|].
  unfold JS.names_of in Hn. apply filter_In in Hn. destruct Hn as [Hn _].
  apply in_map_iff in Hn. destruct Hn as (x & <- & Hx).
  pose proof (split_comma_free s) as F. rewrite Forall_forall in F.
  unfold JS.trim. now apply trimEnd_comma_free, trimStart_comma_free, F.
Qed.

Lemma names_of_join_plain (l : list string) :
  Forall plain_name l -> JS.names_of (JS.join l) = l.
Proof.
  intros F. destruct l as [|x l]; [reflexivity|].
  unfold JS.names_of. rewrite split_join; [| |discriminate].
  - rewrite (map_ext_in JS.trim (fun n => n)), map_id.
    + apply filter_all. intros n Hn. rewrite Forall_forall in F.
      apply JSFacts.nonEmpty_true. now apply F.
    + intros n Hn. rewrite Forall_forall in F. now apply F.
  - eapply Forall_impl; [|exact F]. now intros n (_ & _ & C).
Qed.

Lemma names_of_app_comma (a b : string) :
  JS.names_of (a ++ String "," b) = (JS.names_of a ++ JS.names_of b)%list.
Proof.
  unfold JS.names_of. now rewrite split_app_comma, map_app, filter_app.
Qed.

(** X13.  Parsing a comma separated list of names, joining the names by
    commas and parsing again gives the same names: every parsed name is
    non-empty, trimmed and free of commas, so the join loses nothing. *)
Theorem names_of_join_names_of (s : string) :
  JS.names_of (JS.join (JS.names_of s)) = JS.names_of s /\
  forall n, In n (JS.names_of s) ->
            n <> "" /\ JS.trim n = n /\ comma_free n = true.
Proof.
  split.
  - apply names_of_join_plain, names_of_plain.
  - intros n Hn. pose proof (names_of_plain s) as F. rewrite Forall_forall in F.
    exact (F n Hn).
Qed.

(** ** The owners column of the earlier server *)

Lemma stored_names_of (gamers : option string) :
  ServerCopyGamers.stored gamers = JS.names_of (or_empty gamers).
Proof. destruct gamers; reflexivity. Qed.

(** X17.  Removal in the earlier server: the column written back, read again,
    holds the stored names other than the given one, in their order and
    trimmed; so the given name is gone, however often it was stored. *)
Theorem server_copy_removed (gamers : option string) (gamer_name : string) :
  ServerCopyGamers.stored (Some (ServerCopyGamers.removed gamers gamer_name))
  = filter (fun g => negb (g =? gamer_name)%string) (ServerCopyGamers.stored gamers) /\
  ~ In gamer_name
      (ServerCopyGamers.stored (Some (ServerCopyGamers.removed gamers gamer_name))).
Proof.
  assert (E : ServerCopyGamers.stored (Some (ServerCopyGamers.removed gamers gamer_name))
              = filter (fun g => negb (g =? gamer_name)%string)
                  (ServerCopyGamers.stored gamers)).
  { unfold ServerCopyGamers.removed.
    change (ServerCopyGamers.stored (Some ?x)) with (JS.names_of x).
    apply names_of_join_plain. apply Forall_filter_keep.
    rewrite stored_names_of. apply names_of_plain. }
  split; [exact E|]. rewrite E. intros H. apply filter_In in H. destruct H as [_ H].
  apply negb_true_iff, String.eqb_neq in H. now apply H.
Qed.

(** X18.  Adding in the earlier server appends the name to the stored ones,
    whether or not it is there already; and for a name that is non-empty,
    trimmed and without comma, removing it after adding it writes the same
    column as removing it at once. *)
Theorem server_copy_added_then_removed (gamers : option string) (gamer_name : string) :
  gamer_name <> "" -> JS.trim gamer_name = gamer_name -> comma_free gamer_name = true ->
  ServerCopyGamers.stored (Some (ServerCopyGamers.added gamers gamer_name))
  = (ServerCopyGamers.stored gamers ++ [gamer_name])%list /\
  ServerCopyGamers.removed (Some (ServerCopyGamers.added gamers gamer_name)) gamer_name
  = ServerCopyGamers.removed gamers gamer_name.
Proof.
  intros NE T C.
  assert (E : ServerCopyGamers.stored (Some (ServerCopyGamers.added gamers gamer_name))
              = (ServerCopyGamers.stored gamers ++ [gamer_name])%list).
  { change (ServerCopyGamers.stored (Some ?x)) with (JS.names_of x).
    unfold ServerCopyGamers.added.
    change ("," ++ gamer_name) with (String "," gamer_name).
    rewrite names_of_app_comma, stored_names_of. f_equal.
    unfold JS.names_of. rewrite (split_single gamer_name C). cbn [map filter].
    rewrite T. apply JSFacts.nonEmpty_true in NE. now rewrite NE. }
  split; [exact E|].
  unfold ServerCopyGamers.removed. rewrite E, filter_app. cbn [filter].
  rewrite String.eqb_refl. cbn [negb]. now rewrite app_nil_r.
Qed.

Lemma server_copy_added_then_removed_witness :
  ServerCopyGamers.stored (Some (ServerCopyGamers.added (Some "Alice, Bob") "Bob"))
  = ["Alice"; "Bob"; "Bob"] /\
  ServerCopyGamers.removed (Some (ServerCopyGamers.added (Some "Alice, Bob") "Bob")) "Bob"
  = "Alice".
Proof.
  assert (NE : "Bob" <> "") by discriminate.
  destruct (server_copy_added_then_removed (Some "Alice, Bob") "Bob" NE eq_refl eq_refl)
    as [E R].
  split; [exact E | exact R].
Defined.

(** ** Uniqueness of owners at creation *)

Lemma count_rows_nodup (rows : list gamer_row) (id : Z) (name : string) :
  NoDup (map gg_gamer_name rows) ->
  (List.length (filter (is_edge id name) rows) <= 1)%nat.
Proof.
  induction rows as [|r rows IH]; cbn [map filter List.length]; intros N; [lia|].
  inversion N as [|? ? NI ND]; subst. specialize (IH ND).
  destruct (is_edge id name r) eqn:E; [|exact IH].
  apply is_edge_true in E. destruct E as [_ E].
  rewrite (filter_none (is_edge id name) rows); [cbn; lia|].
  intros x Hx. apply not_true_iff_false. rewrite is_edge_true. intros [_ Ex].
  apply NI. rewrite E, <- Ex. now apply in_map.
Qed.

(** X15.  [create_game] keeps each name at most once within a game when the
    names of [gamers] are pairwise different and no edge refers yet to the
    id the game receives; this from an idle connection, whatever the store
    fails. *)
Theorem create_game_keeps_unique (fault : nat -> bool) (d : db) (game : option string)
  (players : JS.value) (gamers : option string) :
  txn d = None ->
  unique_owners (cur d) ->
  NoDup (owner_names gamers) ->
  (forall n, ~ owns (cur d) (next_rowid (seq_games (cur d)) (map g_id (games (cur d)))) n) ->
  unique_owners (cur (fst (create_game fault d game players gamers))).
Proof.
  intros I U ND Free. destruct game as [g|]; [|exact U].
  destruct (JS.nonEmpty g) eqn:G;
    [|unfold create_game; rewrite G; exact U].
  destruct (JS.truthy players) eqn:T;
    [|unfold create_game; rewrite G, T; exact U].
  apply JSFacts.nonEmpty_true in G.
  pose proof (create_game_outcome fault d g players gamers I G T) as O.
  cbv zeta in O. destruct O as [_ O].
  destruct (if fault (S (List.length (log d))) then None else JS.parseInt players).
  - destruct O as [(_ & _ & _ & _ & rows & R1 & R2 & R3) | (_ & _ & _ & C)];
      [|now rewrite C].
    intros id name. unfold count_edges. rewrite R1, filter_app, length_app.
    destruct (Z.eq_dec id (next_rowid (seq_games (cur d)) (map g_id (games (cur d)))))
      as [->|Ne].
    + rewrite (filter_none _ (game_gamers (cur d))).
      * cbn [List.length Nat.add]. apply count_rows_nodup. now rewrite R3.
      * intros r Hr. apply not_true_iff_false. rewrite is_edge_true. intros [E _].
        apply (Free (gg_gamer_name r)). now exists r.
    + rewrite (filter_none _ rows).
      * cbn [List.length]. rewrite Nat.add_0_r. apply U.
      * intros r Hr. apply not_true_iff_false. rewrite is_edge_true. intros [E _].
        rewrite Forall_forall in R2. specialize (R2 r Hr). congruence.
  - destruct O as (_ & C & _). now rewrite C.
Qed.

Lemma create_game_keeps_unique_witness :
  unique_owners
    (cur (fst (create_game no_fault new_db (Some "Catan") (JS.Num 3) (Some "Alice, Bob")))).
Proof.
  apply (create_game_keeps_unique no_fault new_db (Some "Catan") (JS.Num 3)
           (Some "Alice, Bob")).
  - reflexivity.
  - intros id n. cbn. lia.
  - vm_compute. repeat constructor; cbn; intuition discriminate.
  - intros n (r & [] & _).
Defined.

Lemma handle_unique_owners_witness :
  unique_owners
    (cur (fst (handle no_fault
                 (run_requests no_fault new_db
                    [POST_games_all (Some "Catan") (JS.Num 3) (Some "Alice")])
                 (POST_game_gamers 1 (Some "Alice"))))).
Proof.
  apply (handle_unique_owners no_fault
           (run_requests no_fault new_db
              [POST_games_all (Some "Catan") (JS.Num 3) (Some "Alice")])
           (POST_game_gamers 1 (Some "Alice"))).
  - reflexivity.
  - intros game players gamers. discriminate.
  - intros id n. unfold count_edges. cbn [cur game_gamers].
    change (game_gamers (cur (run_requests no_fault new_db
              [POST_games_all (Some "Catan") (JS.Num 3) (Some "Alice")])))
      with [{| gg_id := 1; gg_game_id := 1; gg_gamer_name := "Alice" |}].
    cbn [filter]. destruct (is_edge id n _); cbn; lia.
Defined.

(** ** The playable route of the earlier server *)

(** X19.  Every item the playable route of the earlier server lists
    comes from a row one of whose stored owners, trimmed, equals one of the
    trimmed entries of the parameter, and whose players value is at least
    the number of entries of the parameter, blank entries counted, hence at
    least one. *)
Theorem server_copy_playable_listed (rows : list ServerCopy.row) (playersParam : string)
  (it : ServerCopy.item) :
  In it (ServerCopy.playable rows playersParam) ->
  exists r,
    In r rows /\
    ServerCopy.i_rowid it = ServerCopy.rowid r /\
    ServerCopy.i_players it = ServerCopy.players r /\
    Z.of_nat (List.length (JS.split playersParam)) <= ServerCopy.players r /\
    1 <= ServerCopy.players r /\
    exists owner stored,
      ServerCopy.gamers r = Some stored /\
      In owner (map JS.trim (JS.split stored)) /\
      In owner (map JS.trim (JS.split playersParam)).
Proof.
  unfold ServerCopy.playable. intros H. apply filter_In in H. destruct H as [H C].
  apply in_map_iff in H. destruct H as (r & <- & Hr).
  cbn [ServerCopy.i_owners_in_group ServerCopy.i_players ServerCopy.i_rowid] in *.
  apply andb_true_iff in C. destruct C as [C1 C2].
  apply Z.geb_le in C2. rewrite length_map in C2.
  exists r. split; [exact Hr|]. split; [reflexivity|]. split; [reflexivity|].
  split; [exact C2|]. split.
  - pose proof (split_nonempty playersParam) as N.
    destruct (JS.split playersParam); [contradiction | cbn [List.length] in C2; lia].
  - destruct (ServerCopy.gamers r) as [stored|]; [|discriminate C1].
    destruct (filter (ServerCopy.includes (map JS.trim (JS.split playersParam)))
                (map JS.trim (JS.split stored))) as [|o l] eqn:F; [discriminate C1|].
    assert (Ho : In o (filter (ServerCopy.includes (map JS.trim (JS.split playersParam)))
                         (map JS.trim (JS.split stored)))) by (rewrite F; now left).
    apply filter_In in Ho. destruct Ho as [H1 H2].
    exists o, stored. split; [reflexivity|]. split; [exact H1|].
    unfold ServerCopy.includes in H2. apply existsb_exists in H2.
    destruct H2 as (x & Hx & E). apply String.eqb_eq in E. now subst.
Qed.

Lemma server_copy_playable_listed_witness :
  exists r,
    In r [{| ServerCopy.rowid := 1; ServerCopy.game := "Catan"; ServerCopy.players := 3;
             ServerCopy.gamers := Some "Alice, Bob" |}] /\
    Z.of_nat (List.length (JS.split "Bob,Carol")) <= ServerCopy.players r.
Proof.
  destruct (server_copy_playable_listed
              [{| ServerCopy.rowid := 1; ServerCopy.game := "Catan"; ServerCopy.players := 3;
                  ServerCopy.gamers := Some "Alice, Bob" |}]
              "Bob,Carol"
              {| ServerCopy.i_rowid := 1; ServerCopy.i_game := "Catan";
                 ServerCopy.i_players := 3; ServerCopy.i_gamer_list := Some "Alice, Bob";
                 ServerCopy.i_owners_in_group := "Bob" |})
    as (r & Hr & _ & _ & Sz & _).
  - left. reflexivity.
  - exists r. split; [exact Hr | exact Sz].
Defined.

Lemma names_of_join_names_of_witness :
  JS.names_of (JS.join (JS.names_of " Alice ,, Bob,")) = ["Alice"; "Bob"] /\
  comma_free "Bob" = true.
Proof.
  destruct (names_of_join_names_of " Alice ,, Bob,") as [E F].
  split; [exact E|].
  apply (F "Bob"). right. left. reflexivity.
Defined.


(** ** The one answer of [create_game] *)


